(** * Peer registry and handshake of the P2P chat node

    A shallow embedding of the peer-connection core shared by
    [P2P_Chat_Snitcher.py] (the command-line node) and [app.py] (the Flask
    node): the reader loop [handle_client], the accept step of
    [server_thread], [send_message] and [connect_to_peer], all acting on
    the global dictionary [active_peers].

    Conventions of the embedding:
    - a socket object is a natural number (its identity); what the program
      does to it ([close]) is recorded in the node state;
    - a peer address is the Python tuple [(ip, port)], a [string * Z];
    - [active_peers] is a [gmap]: a Python dict keyed by those tuples;
    - decoded text is a [string] whose characters are the code points
      0..255; frames with other code points are outside the model;
    - every [with peers_lock:] block is one atomic transition. *)

From Stdlib Require Import ZArith Ascii String Decimal DecimalString DecimalZ.
From stdpp Require Import gmap strings list fin_maps.

Local Open Scope string_scope.
Local Open Scope Z_scope.

(** ** Python string built-ins used by the source *)

Module PyStr.

Definition code (c : ascii) : Z := Z.of_N (N_of_ascii c).

(** [str.isspace] on one character, for code points below 256. *)
Definition isspace (c : ascii) : bool :=
  let n := code c in
  ((9 <=? n) && (n <=? 13)) || ((28 <=? n) && (n <=? 32))
  || (n =? 133) || (n =? 160).

Definition isdecimal (c : ascii) : bool :=
  let n := code c in (48 <=? n) && (n <=? 57).

Definition digit_value (c : ascii) : Z := code c - 48.

(** [str.lower] on one character, for code points below 256. *)
Definition lower_char (c : ascii) : ascii :=
  let n := code c in
  if ((65 <=? n) && (n <=? 90))
     || ((192 <=? n) && (n <=? 222) && negb (n =? 215))
  then ascii_of_N (Z.to_N (n + 32)) else c.

Fixpoint lower (s : string) : string :=
  match s with
  | EmptyString => EmptyString
  | String c s' => String (lower_char c) (lower s')
  end.

Definition is_empty (s : string) : bool :=
  match s with EmptyString => true | String _ _ => false end.

Fixpoint lstrip (s : string) : string :=
  match s with
  | EmptyString => EmptyString
  | String c s' => if isspace c then lstrip s' else s
  end.

Fixpoint rstrip (s : string) : string :=
  match s with
  | EmptyString => EmptyString
  | String c s' =>
      let r := rstrip s' in
      if isspace c && is_empty r then EmptyString else String c r
  end.

(** [s.strip()] *)
Definition strip (s : string) : string := rstrip (lstrip s).

(** [s.startswith(p)] *)
Fixpoint startswith (p s : string) : bool :=
  match p, s with
  | EmptyString, _ => true
  | String _ _, EmptyString => false
  | String a p', String b s' => Ascii.eqb a b && startswith p' s'
  end.

(** [s.split(sep, 1)] for a one-character separator: one or two pieces. *)
Fixpoint split1 (sep : ascii) (s : string) : list string :=
  match s with
  | EmptyString => [EmptyString]
  | String c s' =>
      if Ascii.eqb c sep then [EmptyString; s']
      else match split1 sep s' with
           | h :: t => String c h :: t
           | [] => []
           end
  end.

(** The digit part of an [int] literal: decimal digits, with single
    underscores allowed between digits.  [prev] tells whether the
    previous character was a digit. *)
Fixpoint int_digits (acc : Z) (prev : bool) (s : string) : option Z :=
  match s with
  | EmptyString => if prev then Some acc else None
  | String c s' =>
      if isdecimal c then int_digits (10 * acc + digit_value c) true s'
      else if Ascii.eqb c "_" then
             if prev then int_digits acc false s' else None
           else None
  end.

(** The white space [int] skips around a literal: the six characters of
    C's [isspace], and the spaces above code point 127, which [int] first
    turns into blanks.  The separators 28 to 31, which [strip] removes,
    are not among them. *)
Definition int_isspace (c : ascii) : bool :=
  let n := code c in
  ((9 <=? n) && (n <=? 13)) || (n =? 32) || (n =? 133) || (n =? 160).

Fixpoint int_lstrip (s : string) : string :=
  match s with
  | EmptyString => EmptyString
  | String c s' => if int_isspace c then int_lstrip s' else s
  end.

Fixpoint int_rstrip (s : string) : string :=
  match s with
  | EmptyString => EmptyString
  | String c s' =>
      let r := int_rstrip s' in
      if int_isspace c && is_empty r then EmptyString else String c r
  end.

(** [int(s)] in base ten; [None] is [ValueError]. *)
Definition int (s : string) : option Z :=
  match int_rstrip (int_lstrip s) with
  | String "+" ds => int_digits 0 false ds
  | String "-" ds => Z.opp <$> int_digits 0 false ds
  | ds => int_digits 0 false ds
  end.

(** [str(n)] for an integer, as an f-string formats it. *)
Definition str (n : Z) : string := NilZero.string_of_int (Z.to_int n).

End PyStr.

(** ** The node state *)

(** A socket object, by identity. *)
Definition sock := nat.

(** A peer address: the tuple [(ip, port)]. *)
Definition peer : Type := string * Z.

(** The two programs differ, in the modelled part, in one assignment of
    [handle_client] and in the chat history kept by [app.py]. *)
Inductive program := Cli | Web.

(** What the [print] calls of the modelled functions write. *)
Inductive line :=
| InfoClosedBy (p : peer)
| ErrInvalidConnect (p : peer)
| InfoUpdated (p : peer)
| InfoSentExit (p : peer)
| MessageFrom (p : peer) (message : string)
| ErrException (p : peer)
| InfoAccepted (p : peer)
| DebugConnecting (target : peer)
| ErrCouldNotConnect (target : peer)
| InfoMessageSent (target : peer)
| ErrFailedSend
| InfoSentConnect (target : peer)
| ErrFailedConnectMsg
| ErrInvalidPort.

Definition is_error (l : line) : bool :=
  match l with
  | ErrInvalidConnect _ | ErrException _ | ErrCouldNotConnect _
  | ErrFailedSend | ErrFailedConnectMsg | ErrInvalidPort => true
  | _ => false
  end.

(** The globals of the module and the effects on the outside world:
    [close_calls] counts the [close()] calls received by each socket,
    [chat_history] holds (sender, message) without the time stamp. *)
Record node := Node {
  active_peers : gmap peer sock;
  close_calls : gmap sock nat;
  chat_history : list (string * string);
  stdout : list line
}.

Definition empty_node : node := Node ∅ ∅ [] [].

Definition with_peers (f : gmap peer sock → gmap peer sock) (st : node) : node :=
  Node (f (active_peers st)) (close_calls st) (chat_history st) (stdout st).

Definition print (l : line) (st : node) : node :=
  Node (active_peers st) (close_calls st) (chat_history st) (stdout st ++ [l]).

Definition closes (st : node) (s : sock) : nat := default 0%nat (close_calls st !! s).

(** [s.close()] *)
Definition close (s : sock) (st : node) : node :=
  Node (active_peers st) (<[s := S (closes st s)]> (close_calls st))
       (chat_history st) (stdout st).

(** [f"{ip}:{port}"] *)
Definition label (p : peer) : string := p.1 +:+ ":" +:+ PyStr.str p.2.

(** [add_chat_message(sender, message)] *)
Definition add_chat_message (sender message : string) (st : node) : node :=
  Node (active_peers st) (close_calls st)
       (chat_history st ++ [(sender, message)]) (stdout st).

(** ** The registry steps, one per [with peers_lock:] block *)

(** [if key in active_peers: active_peers.pop(key)] *)
Definition pop_if_present (key : peer) (st : node) : node :=
  match active_peers st !! key with
  | Some _ => with_peers (delete key) st
  | None => st
  end.

(** [active_peers.pop(key, None)] *)
Definition pop (key : peer) (st : node) : node := with_peers (delete key) st.

(** [active_peers[key] = s] *)
Definition assign (key : peer) (s : sock) (st : node) : node :=
  with_peers (<[key := s]>) st.

(** The locked block of [handle_client] run on a CONNECT frame. *)
Definition rekey (current_peer new_peer : peer) (conn : sock) (st : node) : node :=
  let st1 := pop_if_present current_peer st in
  let st2 := match active_peers st1 !! new_peer with
             | Some elder => close elder st1
             | None => st1
             end in
  assign new_peer conn st2.

(** ** The reader: [handle_client] *)

(** What one [conn.recv(1024)] followed by [data.decode()] gives: the
    decoded text (empty for the empty read) or an exception.  A read
    returns at most 1024 bytes, so no integer literal in a frame reaches
    the length at which [int] gives up. *)
Inductive recv_result :=
| RecvData (data : string)
| RecvRaises.

(** How an iteration of the loop ends. *)
Inductive ctl :=
| Continue (current_peer : peer)
| Break.

(** The tail of the loop body for a message that is no control frame. *)
Definition deliver (v : program) (current_peer : peer) (message : string)
    (st : node) : node :=
  let st1 := print (MessageFrom current_peer message) st in
  match v with
  | Cli => st1
  | Web => add_chat_message (label current_peer) message st1
  end.

(** One iteration of the [while] loop, with the handler of the enclosing
    [try] for the iterations that raise. *)
Definition loop_body (v : program) (conn : sock) (current_peer : peer)
    (r : recv_result) (st : node) : node * ctl :=
  match r with
  | RecvRaises => (print (ErrException current_peer) st, Break)
  | RecvData data =>
      if PyStr.is_empty data then (print (InfoClosedBy current_peer) st, Break)
      else
        let message := PyStr.strip data in
        if PyStr.is_empty message then (st, Continue current_peer)
        else if PyStr.startswith "CONNECT:" message then
          match PyStr.split1 ":" message !! 1%nat with
          | None => (print (ErrException current_peer) st, Break)
          | Some field =>
              match PyStr.int field with
              | None => (print (ErrInvalidConnect current_peer) st,
                         Continue current_peer)
              | Some sender_listen_port =>
                  let new_peer := (current_peer.1, sender_listen_port) in
                  (print (InfoUpdated new_peer)
                         (rekey current_peer new_peer conn st),
                   Continue (match v with
                             | Web => new_peer
                             | Cli => current_peer
                             end))
              end
          end
        else if String.eqb (PyStr.lower message) "exit" then
          (print (InfoSentExit current_peer) st, Break)
        else (deliver v current_peer message st, Continue current_peer)
  end.

(** The [finally] block. *)
Definition finally_block (conn : sock) (current_peer : peer) (st : node) : node :=
  close conn (pop_if_present current_peer st).

(** What the reader sees at the head of an iteration: the shutdown flag
    set, or the result of the read. *)
Inductive event :=
| ShutdownSet
| Recv (r : recv_result).

(** The empty read: the peer has closed the stream. *)
Definition eof : event := Recv (RecvData EmptyString).

(** One turn of the reader: [Some p] when it goes on with current peer
    [p], [None] when it has left the loop and run the [finally] block. *)
Definition reader_step (v : program) (conn : sock) (current_peer : peer)
    (e : event) (st : node) : node * option peer :=
  match e with
  | ShutdownSet => (finally_block conn current_peer st, None)
  | Recv r =>
      match loop_body v conn current_peer r st with
      | (st', Continue p) => (st', Some p)
      | (st', Break) => (finally_block conn current_peer st', None)
      end
  end.

(** [handle_client(conn, addr)] on the events it meets; [Some p] when the
    events are used up and the reader waits in [recv]. *)
Fixpoint handle_client (v : program) (conn : sock) (addr : peer)
    (events : list event) (st : node) : node * option peer :=
  match events with
  | [] => (st, Some addr)
  | e :: events' =>
      match reader_step v conn addr e st with
      | (st', Some p) => handle_client v conn p events' st'
      | (st', None) => (st', None)
      end
  end.

(** ** The listener: the body of [server_thread] after a successful accept *)

Definition accept_conn (addr : peer) (conn : sock) (st : node) : node :=
  assign addr conn (print (InfoAccepted addr) st).

(** ** The dialer and the sender *)

(** The outcome of [socket.socket(...)], [connect(target)] and
    [getpeername()]: the new socket and the address it reports, or an
    exception. *)
Inductive dial_result :=
| Connected (s : sock) (peername : peer)
| ConnectRaises.

(** What Python functions return. *)
Inductive pyval :=
| PyNone
| PyBool (b : bool).

(** The result of a call: the node afterwards, the value returned, and the
    reader thread started, if any. *)
Record outcome := Outcome {
  after : node;
  returned : pyval;
  started : option (sock * peer)
}.

(** The [try] block that dials, when the connect succeeds: the new socket
    is registered under the address it reports. *)
Definition dial_register (target : peer) (s : sock) (peername : peer)
    (st : node) : node :=
  assign peername s (print (DebugConnecting target) st).

(** [active_peers.pop(target, None)] under the lock, then [sock.close()]. *)
Definition teardown (target : peer) (s : sock) (st : node) : node :=
  close s (pop target st).

(** The first half of [send_message] and [connect_to_peer]: the socket to
    write to and the reader started, or [None] after a failed connect. *)
Definition get_or_create (target : peer) (dial : dial_result) (st : node)
    : node * option (sock * option (sock * peer)) :=
  match active_peers st !! target with
  | Some s => (st, Some (s, None))
  | None =>
      match dial with
      | Connected s peername =>
          (dial_register target s peername st, Some (s, Some (s, peername)))
      | ConnectRaises =>
          (print (ErrCouldNotConnect target) (print (DebugConnecting target) st),
           None)
      end
  end.

(** [send_message(target_ip, target_port, message)]; [send_ok] tells
    whether [sendall] returns or raises. *)
Definition send_message (target : peer) (message : string)
    (dial : dial_result) (send_ok : bool) (st : node) : outcome :=
  match get_or_create target dial st with
  | (st1, None) => Outcome st1 PyNone None
  | (st1, Some (s, thread)) =>
      if send_ok then
        let st2 := print (InfoMessageSent target) st1 in
        if String.eqb (PyStr.lower message) "exit"
        then Outcome (teardown target s st2) PyNone thread
        else Outcome st2 PyNone thread
      else
        Outcome (teardown target s (print ErrFailedSend st1)) PyNone thread
  end.

(** [connect_msg = f"CONNECT:{my_listen_port}"] *)
Definition connect_msg (my_listen_port : Z) : string :=
  "CONNECT:" +:+ PyStr.str my_listen_port.

(** [connect_to_peer(target_ip, target_port)] *)
Definition connect_to_peer (my_listen_port : Z) (target : peer)
    (dial : dial_result) (send_ok : bool) (st : node) : outcome :=
  match get_or_create target dial st with
  | (st1, None) => Outcome st1 PyNone None
  | (st1, Some (s, thread)) =>
      if send_ok then Outcome (print (InfoSentConnect target) st1) PyNone thread
      else
        Outcome (teardown target s (print ErrFailedConnectMsg st1)) PyNone thread
  end.

(** ** The node among its threads *)

(** The node, the running readers with their [current_peer], and the
    identity the next socket object gets. *)
Record system := System {
  the_node : node;
  readers : gmap sock peer;
  next_sock : sock
}.

Definition initial : system := System empty_node ∅ 0%nat.

(** The atomic moves of the threads. *)
Inductive action :=
| Accept (addr : peer)
    (* server_thread: accept, register, start the reader *)
| Dial (target peername : peer)
    (* send_message / connect_to_peer: connect, register, start the reader *)
| Deliver (conn : sock) (e : event)
    (* one turn of the reader of [conn] *)
| Teardown (target : peer) (s : sock).
    (* send_message / connect_to_peer: pop(target, None) and s.close() *)

Definition step (v : program) (a : action) (sys : system) : system :=
  match a with
  | Accept addr =>
      let conn := next_sock sys in
      System (accept_conn addr conn (the_node sys))
             (<[conn := addr]> (readers sys)) (S conn)
  | Dial target peername =>
      let s := next_sock sys in
      System (dial_register target s peername (the_node sys))
             (<[s := peername]> (readers sys)) (S s)
  | Deliver conn e =>
      match readers sys !! conn with
      | None => sys
      | Some current_peer =>
          match reader_step v conn current_peer e (the_node sys) with
          | (st', Some p) =>
              System st' (<[conn := p]> (readers sys)) (next_sock sys)
          | (st', None) =>
              System st' (delete conn (readers sys)) (next_sock sys)
          end
      end
  | Teardown target s =>
      System (teardown target s (the_node sys)) (readers sys) (next_sock sys)
  end.

Definition run (v : program) (actions : list action) (sys : system) : system :=
  foldl (λ s a, step v a s) sys actions.

(** A socket has had a reader that is gone. *)
Definition reader_exited (sys : system) (conn : sock) : Prop :=
  (conn < next_sock sys)%nat ∧ readers sys !! conn = None.

(** ** Observations used in the statements *)

(** A text without white space, and a text of decimal digits. *)
Fixpoint no_space (s : string) : bool :=
  match s with
  | EmptyString => true
  | String c s' => negb (PyStr.isspace c) && no_space s'
  end.

Fixpoint all_digits (s : string) : bool :=
  match s with
  | EmptyString => true
  | String c s' => PyStr.isdecimal c && all_digits s'
  end.

(** The entries of the registry under one address, as a listing of the
    dictionary shows them. *)
Definition entries_at (key : peer) (st : node) : list (peer * sock) :=
  filter (λ kv, kv.1 = key) (map_to_list (active_peers st)).

(** Whether a call wrote its payload: a socket was found or dialed and
    [sendall] returned. *)
Definition wrote (target : peer) (dial : dial_result) (send_ok : bool)
    (st : node) : bool :=
  match (get_or_create target dial st).2 with
  | Some _ => send_ok
  | None => false
  end.

(** In [app.py] every entry of the registry belongs to a running reader
    that holds the entry's address as its current peer address, and a
    socket whose reader is gone has been closed. *)
Record tracked (sys : system) : Prop := Tracked {
  entry_has_reader : ∀ key conn,
    active_peers (the_node sys) !! key = Some conn → readers sys !! conn = Some key;
  reader_allocated : ∀ conn p,
    readers sys !! conn = Some p → (conn < next_sock sys)%nat;
  exited_closed : ∀ conn,
    reader_exited sys conn → (1 ≤ closes (the_node sys) conn)%nat
}.

(** ** Scenarios *)

Definition eph : peer := ("10.0.0.5", 54321).
Definition eph2 : peer := ("10.0.0.5", 54322).
Definition decl : peer := ("10.0.0.5", 8000).
Definition far : peer := ("10.0.0.9", 7000).

(** Two sends to [far] race in [app.py]: both find no entry, both dial;
    the second registration takes the slot of the first. *)
Definition double_dial : system := run Web [Dial far far; Dial far far] initial.

(** The command-line node dials [far]; the peer declares port 9000, which
    moves the entry but not the reader's address; a second send to [far]
    finds no entry and dials again. *)
Definition redial : system :=
  run Cli [Dial far far; Deliver 0%nat (Recv (RecvData "CONNECT:9000"));
           Dial far far] initial.

(** Two inbound connections of one host declare the same port: the
    second handshake evicts the first connection. *)
Definition collision (v : program) : system :=
  run v [Accept eph; Deliver 0%nat (Recv (RecvData "CONNECT:8000"));
         Accept eph2; Deliver 1%nat (Recv (RecvData "CONNECT:8000"))] initial.


(** ** The listener loop: [server_thread] *)

(** What an iteration of the accept loop meets: the shutdown flag set at
    the head of the loop, a timeout of [accept], an exception of [accept]
    (with the value of the shutdown flag read by the handler), or a new
    connection. *)
Inductive listener_event :=
| SeesShutdown
| AcceptTimesOut
| AcceptRaises (shutdown_is_set : bool)
| AcceptReturns (addr : peer).



Definition is_accept (e : listener_event) : bool :=
  match e with AcceptReturns _ => true | _ => false end.



(** ** The listings: [query_active_peers] and the [/updates] route *)



(** The body of the [/updates] route: the chat history and the labels of
    the keys, in the order the dictionary iterates them. *)
Definition updates (keys : list peer) (st : node)
    : list (string * string) * list string :=
  (chat_history st, label <$> keys).

(** [keys] lists the keys of the registry, in some order. *)
Definition keys_of (st : node) (keys : list peer) : Prop :=
  keys ≡ₚ (map_to_list (active_peers st)).*1.

(** A text without a colon. *)
Fixpoint no_colon (s : string) : bool :=
  match s with
  | EmptyString => true
  | String c s' => negb (Ascii.eqb c ":") && no_colon s'
  end.

(** The character [c] is the character [p] or, when [p] is a lower-case
    letter, its capital. *)
Definition same_letter (p c : ascii) : bool :=
  Ascii.eqb c p
  || (let n := PyStr.code p in
      (97 <=? n) && (n <=? 122) && (PyStr.code c =? n - 32)).

(** [s] is the lower-case text [pat] up to the case of its letters. *)
Fixpoint equal_nocase (pat s : string) : bool :=
  match pat, s with
  | EmptyString, EmptyString => true
  | String p pat', String c s' => same_letter p c && equal_nocase pat' s'
  | _, _ => false
  end.

(** [s] begins with the lower-case text [pat] up to the case of its
    letters. *)
Fixpoint prefix_nocase (pat s : string) : bool :=
  match pat, s with
  | EmptyString, _ => true
  | String p pat', String c s' => same_letter p c && prefix_nocase pat' s'
  | String _ _, EmptyString => false
  end.

(** A text of white space only. *)
Fixpoint all_space (s : string) : bool :=
  match s with
  | EmptyString => true
  | String c s' => PyStr.isspace c && all_space s'
  end.

(** ** The end of [main]: closing every registered socket *)

(** The loop over [list(active_peers.items())], given the items in the
    order the dictionary iterates them, then [active_peers.clear()]. *)
Definition close_all (items : list (peer * sock)) (st : node) : node :=
  foldl (λ acc kv, close kv.2 acc) st items.

Definition shutdown_peers (items : list (peer * sock)) (st : node) : node :=
  with_peers (λ _, ∅) (close_all items st).

(** The number of addresses under which a socket is registered. *)
Definition registrations (st : node) (s : sock) : nat :=
  length (filter (λ kv, kv.2 = s) (map_to_list (active_peers st))).

(** ** The callers of [send_message] and [connect_to_peer] *)

(** The payload both front ends hand to [send_message]:
    [f"{team_name}: {message}"]. *)
Definition chat_payload (team_name message : string) : string :=
  team_name +:+ ": " +:+ message.

(** What a front end did with a request: dropped it for an empty field,
    refused its port (with the node as the refusal leaves it), or made
    the call. *)
Inductive request_result :=
| Rejected
| InvalidPort (st' : node)
| Called (out : outcome).

(** Choice 1 of the menu of the command-line program, given the three
    lines typed; a port that is no integer is answered by the line
    "Invalid port number". *)
Definition menu_send (team_name target_ip port_text message_text : string)
    (dial : dial_result) (send_ok : bool) (st : node) : request_result :=
  let target_ip := PyStr.strip target_ip in
  match PyStr.int (PyStr.strip port_text) with
  | None => InvalidPort (print ErrInvalidPort st)
  | Some target_port =>
      let message := PyStr.strip message_text in
      Called (send_message (target_ip, target_port)
                (chat_payload team_name message) dial send_ok st)
  end.

(** Choice 3 of the menu of the command-line program. *)
Definition menu_connect (my_listen_port : Z) (target_ip port_text : string)
    (dial : dial_result) (send_ok : bool) (st : node) : request_result :=
  let target_ip := PyStr.strip target_ip in
  match PyStr.int (PyStr.strip port_text) with
  | None => InvalidPort (print ErrInvalidPort st)
  | Some target_port =>
      Called (connect_to_peer my_listen_port (target_ip, target_port)
                dial send_ok st)
  end.

(** The [/send] route of [app.py], given the three form fields (a missing
    field is the empty text). *)
Definition route_send (team_name target_ip target_port message : string)
    (dial : dial_result) (send_ok : bool) (st : node) : request_result :=
  let ip := PyStr.strip target_ip in
  let port_str := PyStr.strip target_port in
  let message := PyStr.strip message in
  if PyStr.is_empty ip || PyStr.is_empty port_str || PyStr.is_empty message
  then Rejected
  else
    match PyStr.int port_str with
    | None => InvalidPort st
    | Some port =>
        Called (send_message (ip, port) (chat_payload team_name message)
                  dial send_ok (add_chat_message team_name message st))
    end.

(** The [/connect] route of [app.py]; the thread it starts runs
    [connect_to_peer]. *)
Definition route_connect (my_listen_port : Z) (peer_ip peer_port : string)
    (dial : dial_result) (send_ok : bool) (st : node) : request_result :=
  let peer_ip := PyStr.strip peer_ip in
  match PyStr.int (PyStr.strip peer_port) with
  | None => InvalidPort st
  | Some peer_port =>
      Called (connect_to_peer my_listen_port (peer_ip, peer_port)
                dial send_ok st)
  end.

(** The node after a request. *)
Definition node_after (r : request_result) (st : node) : node :=
  match r with
  | Called out => after out
  | InvalidPort st' => st'
  | Rejected => st
  end.

Global Arguments rekey : simpl never.
Global Arguments pop_if_present : simpl never.
Global Arguments loop_body : simpl never.
Global Arguments finally_block : simpl never.
Global Arguments PyStr.strip : simpl never.


(** * Facts *)

(** ** Strings *)

Section strings.
Import PyStr.

Example strip_ex : PyStr.strip "  CONNECT:8000 " = "CONNECT:8000".
Proof. reflexivity. Qed.
Example int_ex1 : PyStr.int " +8_000 " = Some 8000.
Proof. reflexivity. Qed.
Example int_ex2 : PyStr.int "80a" = None.
Proof. reflexivity. Qed.
Example int_ex3 : PyStr.int "-12" = Some (-12).
Proof. reflexivity. Qed.
Example int_ex4 : PyStr.int "1__0" = None.
Proof. reflexivity. Qed.
Example str_ex : PyStr.str 8000 = "8000" /\ PyStr.str (-7) = "-7" /\ PyStr.str 0 = "0".
Proof. repeat split; reflexivity. Qed.
Example split_ex : PyStr.split1 ":" "CONNECT:80:1" = ["CONNECT"; "80:1"].
Proof. reflexivity. Qed.
Example lower_ex : PyStr.lower "ExIt" = "exit".
Proof. reflexivity. Qed.

Lemma isdecimal_not_space c : isdecimal c = true → isspace c = false.
Proof. unfold isdecimal, isspace. lia. Qed.

Lemma all_digits_no_space s : all_digits s = true → no_space s = true.
Proof.
  induction s as [|c s IH]; simpl; [done|].
  intros [Hc Hs]%andb_prop. rewrite (isdecimal_not_space _ Hc). simpl. auto.
Qed.

Lemma rstrip_no_space s : no_space s = true → rstrip s = s.
Proof.
  induction s as [|c s IH]; simpl; [done|].
  intros [Hc Hs]%andb_prop. rewrite (IH Hs).
  apply negb_true_iff in Hc. by rewrite Hc.
Qed.

Lemma lstrip_no_space s : no_space s = true → lstrip s = s.
Proof.
  destruct s as [|c s]; simpl; [done|].
  intros [Hc _]%andb_prop. apply negb_true_iff in Hc. by rewrite Hc.
Qed.

Lemma strip_no_space s : no_space s = true → strip s = s.
Proof.
  intros H. unfold strip. rewrite (lstrip_no_space _ H).
  by apply rstrip_no_space.
Qed.

Lemma no_space_app s t :
  no_space s = true → no_space t = true → no_space (s +:+ t) = true.
Proof.
  induction s as [|c s IH]; simpl; [done|].
  intros [Hc Hs]%andb_prop Ht. rewrite Hc. simpl. auto.
Qed.

Lemma all_digits_uint d : all_digits (NilEmpty.string_of_uint d) = true.
Proof. induction d; simpl; auto. Qed.

Lemma int_digits_uint_acc d (acc : positive) :
  int_digits (Z.pos acc) true (NilEmpty.string_of_uint d)
  = Some (Z.pos (Pos.of_uint_acc d acc)).
Proof.
  revert acc. induction d; intros acc; simpl; [done|..];
    match goal with
    | |- int_digits ?a true _ = _ =>
        match goal with
        | |- _ = Some (Z.pos (Pos.of_uint_acc _ ?b)) =>
            replace a with (Z.pos b) by (unfold digit_value, code; simpl; lia)
        end
    end; apply IHd.
Qed.

Lemma int_digits_uint d :
  int_digits 0 true (NilEmpty.string_of_uint d)
  = Some (Z.of_N (Pos.of_uint d)).
Proof.
  induction d; simpl; [done | exact IHd | ..];
    match goal with
    | |- int_digits ?a true _ = Some (Z.pos (Pos.of_uint_acc _ ?b)) =>
        change a with (Z.pos b)
    end; apply int_digits_uint_acc.
Qed.

Lemma int_digits_start d :
  d ≠ Nil →
  int_digits 0 false (NilEmpty.string_of_uint d)
  = int_digits 0 true (NilEmpty.string_of_uint d).
Proof. destruct d; simpl; done. Qed.

Lemma to_uint_not_nil p : Pos.to_uint p ≠ Nil.
Proof.
  intros H. pose proof (DecimalPos.Unsigned.of_to p) as E.
  rewrite H in E. discriminate.
Qed.

Lemma string_of_pos_uint p :
  NilZero.string_of_uint (Pos.to_uint p) = NilEmpty.string_of_uint (Pos.to_uint p).
Proof.
  pose proof (to_uint_not_nil p). unfold NilZero.string_of_uint.
  by destruct (Pos.to_uint p).
Qed.

Lemma first_is_digit d :
  d ≠ Nil → ∃ c s, NilEmpty.string_of_uint d = String c s ∧ isdecimal c = true.
Proof. destruct d; [done|..]; intros _; simpl; eauto. Qed.

Lemma no_space_str z : no_space (str z) = true.
Proof.
  unfold str. destruct z as [|p|p]; simpl; [done|..];
    rewrite string_of_pos_uint;
    [|change (no_space (String "-" ?s)) with (no_space s)];
    apply all_digits_no_space, all_digits_uint.
Qed.

Lemma int_isspace_isspace c : int_isspace c = true → isspace c = true.
Proof. unfold int_isspace, isspace. lia. Qed.

Lemma int_strip_no_space s : no_space s = true → int_rstrip (int_lstrip s) = s.
Proof.
  intros H.
  assert (int_lstrip s = s) as ->.
  { destruct s as [|c s]; [done|]. cbn [no_space] in H. cbn [int_lstrip].
    apply andb_prop in H as [Hc _]. apply negb_true_iff in Hc.
    destruct (int_isspace c) eqn:E; [|done].
    apply int_isspace_isspace in E. congruence. }
  induction s as [|c s IH]; [done|]. cbn [no_space] in H. cbn [int_rstrip].
  apply andb_prop in H as [Hc Hs]. apply negb_true_iff in Hc. rewrite (IH Hs).
  destruct (int_isspace c) eqn:E; [|done].
  apply int_isspace_isspace in E. congruence.
Qed.

(** [int(str(n)) == n] *)
Lemma int_str z : int (str z) = Some z.
Proof.
  unfold int. rewrite (int_strip_no_space _ (no_space_str z)).
  unfold str. destruct z as [|p|p]; simpl; [done|..];
    rewrite string_of_pos_uint.
  - destruct (first_is_digit _ (to_uint_not_nil p)) as (c & s & E & Hc).
    assert (int_digits 0 false (NilEmpty.string_of_uint (Pos.to_uint p))
            = Some (Z.pos p)) as R.
    { rewrite int_digits_start by apply to_uint_not_nil.
      rewrite int_digits_uint, DecimalPos.Unsigned.of_to. done. }
    rewrite E in R |- *.
    destruct c as [[] [] [] [] [] [] [] []]; try discriminate Hc; exact R.
  - rewrite int_digits_start by apply to_uint_not_nil.
    rewrite int_digits_uint, DecimalPos.Unsigned.of_to. done.
Qed.

End strings.

(** ** The registry steps *)

Lemma peers_pop_if_present key st :
  active_peers (pop_if_present key st) = delete key (active_peers st).
Proof.
  unfold pop_if_present. destruct (active_peers st !! key) eqn:E; simpl; [done|].
  by rewrite delete_id.
Qed.

Lemma closes_pop_if_present key st s :
  closes (pop_if_present key st) s = closes st s.
Proof. unfold pop_if_present. by destruct (active_peers st !! key). Qed.

Lemma closes_close s st s' :
  closes (close s st) s' = if decide (s = s') then S (closes st s) else closes st s'.
Proof.
  unfold closes at 1. simpl. rewrite lookup_insert.
  case_decide; [done|]. by destruct (decide (s = s')).
Qed.

Lemma closes_close_eq s st : closes (close s st) s = S (closes st s).
Proof. rewrite closes_close. by rewrite decide_True. Qed.

Lemma closes_close_le s st s' : (closes st s' ≤ closes (close s st) s')%nat.
Proof. rewrite closes_close. case_decide; subst; lia. Qed.

Lemma closes_assign key s st s' : closes (assign key s st) s' = closes st s'.
Proof. done. Qed.

Lemma peers_rekey current_peer new_peer conn st :
  active_peers (rekey current_peer new_peer conn st)
  = <[new_peer := conn]> (delete current_peer (active_peers st)).
Proof.
  unfold rekey. rewrite <- peers_pop_if_present.
  by destruct (active_peers (pop_if_present current_peer st) !! new_peer).
Qed.

Lemma closes_rekey current_peer new_peer conn st s :
  closes (rekey current_peer new_peer conn st) s
  = match delete current_peer (active_peers st) !! new_peer with
    | Some elder => if decide (elder = s) then S (closes st s) else closes st s
    | None => closes st s
    end.
Proof.
  unfold rekey. rewrite peers_pop_if_present.
  destruct (delete current_peer (active_peers st) !! new_peer) as [elder|];
    rewrite closes_assign.
  - rewrite closes_close. case_decide; subst; by rewrite closes_pop_if_present.
  - apply closes_pop_if_present.
Qed.

Lemma closes_rekey_le current_peer new_peer conn st s :
  (closes st s ≤ closes (rekey current_peer new_peer conn st) s)%nat.
Proof.
  rewrite closes_rekey.
  destruct (delete current_peer (active_peers st) !! new_peer); [|done].
  case_decide; lia.
Qed.

Lemma chat_history_rekey current_peer new_peer conn st :
  chat_history (rekey current_peer new_peer conn st) = chat_history st.
Proof.
  unfold rekey, pop_if_present. destruct (active_peers st !! current_peer);
    by match goal with |- context [match ?x with _ => _ end] => destruct x end.
Qed.

Lemma peers_finally conn current_peer st :
  active_peers (finally_block conn current_peer st)
  = delete current_peer (active_peers st).
Proof. unfold finally_block. simpl. apply peers_pop_if_present. Qed.

Lemma closes_finally conn current_peer st s :
  closes (finally_block conn current_peer st) s
  = if decide (conn = s) then S (closes st s) else closes st s.
Proof.
  unfold finally_block. rewrite closes_close.
  case_decide; subst; by rewrite closes_pop_if_present.
Qed.

Lemma entries_at_Some key s st :
  active_peers st !! key = Some s → entries_at key st = [(key, s)].
Proof.
  intros H. unfold entries_at. apply Permutation_singleton_r.
  apply NoDup_Permutation.
  - apply NoDup_filter, NoDup_map_to_list.
  - apply NoDup_singleton.
  - intros [k x]. rewrite list_elem_of_filter, elem_of_map_to_list.
    rewrite list_elem_of_singleton. simpl. split.
    + intros [-> Hx]. congruence.
    + intros [= -> ->]. done.
Qed.

Lemma entries_at_None key st :
  active_peers st !! key = None → entries_at key st = [].
Proof.
  intros H. unfold entries_at. apply elem_of_nil_inv.
  intros [k x]. rewrite list_elem_of_filter, elem_of_map_to_list. simpl.
  intros [-> Hx]. congruence.
Qed.

(** The listing of the dictionary never shows an address twice. *)
Lemma entries_unique st : NoDup (map_to_list (active_peers st)).*1.
Proof. apply NoDup_fst_map_to_list. Qed.

(** ** The loop body *)

(** A frame whose trimmed text is [CONNECT:] followed by an integer
    literal re-keys the registry. *)
Lemma loop_body_connect v conn current_peer data field port st :
  PyStr.strip data = "CONNECT:" +:+ field →
  PyStr.int field = Some port →
  loop_body v conn current_peer (RecvData data) st
  = (print (InfoUpdated (current_peer.1, port))
           (rekey current_peer (current_peer.1, port) conn st),
     Continue (match v with Web => (current_peer.1, port) | Cli => current_peer end)).
Proof.
  intros Hstrip Hint.
  assert (PyStr.is_empty data = false) as Hdata by (by destruct data).
  unfold loop_body. rewrite Hdata, Hstrip.
  change (PyStr.is_empty ("CONNECT:" +:+ field)) with false.
  change (PyStr.startswith "CONNECT:" ("CONNECT:" +:+ field)) with true.
  change (PyStr.split1 ":" ("CONNECT:" +:+ field) !! 1%nat) with (Some field).
  cbv iota. by rewrite Hint.
Qed.

(** The frame written by [connect_to_peer] is such a frame. *)
Lemma loop_body_connect_msg v conn current_peer my_listen_port st :
  loop_body v conn current_peer (RecvData (connect_msg my_listen_port)) st
  = (print (InfoUpdated (current_peer.1, my_listen_port))
           (rekey current_peer (current_peer.1, my_listen_port) conn st),
     Continue (match v with
               | Web => (current_peer.1, my_listen_port)
               | Cli => current_peer
               end)).
Proof.
  apply (loop_body_connect _ _ _ _ (PyStr.str my_listen_port)).
  - apply strip_no_space. unfold connect_msg.
    apply (no_space_app "CONNECT:"); [done | apply no_space_str].
  - apply int_str.
Qed.

Lemma handle_client_connect v conn current_peer data field port events st :
  PyStr.strip data = "CONNECT:" +:+ field →
  PyStr.int field = Some port →
  handle_client v conn current_peer (Recv (RecvData data) :: events) st
  = handle_client v conn
      (match v with Web => (current_peer.1, port) | Cli => current_peer end)
      events
      (print (InfoUpdated (current_peer.1, port))
             (rekey current_peer (current_peer.1, port) conn st)).
Proof.
  intros Hs Hi. cbn [handle_client]. unfold reader_step.
  by rewrite (loop_body_connect _ _ _ _ _ _ _ Hs Hi).
Qed.

(** A frame that leaves the loop leaves the registry and the sockets as
    they are: only the [finally] block acts. *)
Lemma loop_body_break v conn current_peer r st st' :
  loop_body v conn current_peer r st = (st', Break) →
  active_peers st' = active_peers st ∧ close_calls st' = close_calls st.
Proof.
  unfold loop_body. intros H.
  repeat match type of H with
         | (match ?x with _ => _ end) = _ => destruct x
         | (if ?x then _ else _) = _ => destruct x
         end; by simplify_eq.
Qed.

(** A chat frame: not empty once trimmed, no CONNECT prefix, not the exit
    word. *)
Lemma loop_body_chat v conn current_peer data st :
  PyStr.is_empty (PyStr.strip data) = false →
  PyStr.startswith "CONNECT:" (PyStr.strip data) = false →
  String.eqb (PyStr.lower (PyStr.strip data)) "exit" = false →
  loop_body v conn current_peer (RecvData data) st
  = (deliver v current_peer (PyStr.strip data) st, Continue current_peer).
Proof.
  intros He Hc Hx.
  assert (PyStr.is_empty data = false) as Hdata by (by destruct data).
  unfold loop_body. by rewrite Hdata, He, Hc, Hx.
Qed.

Lemma peers_deliver v current_peer message st :
  active_peers (deliver v current_peer message st) = active_peers st.
Proof. by destruct v. Qed.

Lemma close_calls_deliver v current_peer message st :
  close_calls (deliver v current_peer message st) = close_calls st.
Proof. by destruct v. Qed.

(** * The properties of the specification, C1 to C10 *)

(** ** C1: no stale entries *)

Lemma loop_body_continue v conn current_peer r st st' p :
  loop_body v conn current_peer r st = (st', Continue p) →
  (p = current_peer ∧ active_peers st' = active_peers st
   ∧ close_calls st' = close_calls st)
  ∨ (∃ port,
       p = match v with Web => (current_peer.1, port) | Cli => current_peer end
       ∧ st' = print (InfoUpdated (current_peer.1, port))
                     (rekey current_peer (current_peer.1, port) conn st)).
Proof.
  unfold loop_body. intros H.
  repeat match type of H with
         | (match ?x with _ => _ end) = _ => destruct x
         | (if ?x then _ else _) = _ => destruct x
         end; simplify_eq;
    first [ by left
          | left; by rewrite peers_deliver, close_calls_deliver
          | right; eauto ].
Qed.

Lemma tracked_initial : tracked initial.
Proof.
  split.
  - intros key conn. cbn. by rewrite lookup_empty.
  - intros conn p. cbn. by rewrite lookup_empty.
  - intros conn [H _]. cbn in H. lia.
Qed.

Lemma tracked_register sys key l :
  tracked sys →
  tracked (System (assign key (next_sock sys) (print l (the_node sys)))
                  (<[next_sock sys := key]> (readers sys)) (S (next_sock sys))).
Proof.
  intros [H1 H2 H3]. split; cbn.
  - intros k c. rewrite lookup_insert. case_decide as E.
    + intros [= <-]. subst k. apply lookup_insert_eq.
    + intros Hk. pose proof (H1 _ _ Hk) as Hr. pose proof (H2 _ _ Hr).
      rewrite lookup_insert_ne by lia. done.
  - intros c p. rewrite lookup_insert. case_decide; [lia|].
    intros Hr. pose proof (H2 _ _ Hr). lia.
  - intros c [Hlt Hr]. cbn in Hlt, Hr.
    rewrite lookup_insert in Hr. case_decide; [done|].
    apply (H3 c). split; [lia | done].
Qed.

Lemma tracked_exit sys conn current_peer st1 :
  tracked sys →
  readers sys !! conn = Some current_peer →
  active_peers st1 = active_peers (the_node sys) →
  close_calls st1 = close_calls (the_node sys) →
  tracked (System (finally_block conn current_peer st1)
                  (delete conn (readers sys)) (next_sock sys)).
Proof.
  intros [H1 H2 H3] Hr Hp Hc.
  assert (∀ s, closes st1 s = closes (the_node sys) s) as Hcl
    by (intros s; unfold closes; by rewrite Hc).
  split; cbn.
  - intros k c. rewrite peers_finally, Hp.
    rewrite lookup_delete. case_decide; [done|]. intros Hk.
    pose proof (H1 _ _ Hk) as Hr'.
    rewrite lookup_delete_ne; [done|]. intros <-. congruence.
  - intros c p. rewrite lookup_delete. case_decide; [done|]. apply H2.
  - intros c [Hlt Hx]. cbn in Hlt, Hx. rewrite closes_finally.
    case_decide; [lia|]. rewrite Hcl. apply H3.
    rewrite lookup_delete_ne in Hx by done. by split.
Qed.

Lemma tracked_step a sys : tracked sys → tracked (step Web a sys).
Proof.
  intros Ht. destruct a as [addr|target peername|conn e|target s]; cbn [step].
  - apply (tracked_register sys addr (InfoAccepted addr) Ht).
  - apply (tracked_register sys peername (DebugConnecting target) Ht).
  - destruct (readers sys !! conn) as [current_peer|] eqn:Hr; [|done].
    unfold reader_step. destruct e as [|r].
    { by apply tracked_exit. }
    destruct (loop_body Web conn current_peer r (the_node sys))
      as [st1 [p|]] eqn:E.
    2:{ destruct (loop_body_break _ _ _ _ _ _ E). by apply tracked_exit. }
    destruct Ht as [H1 H2 H3].
    destruct (loop_body_continue _ _ _ _ _ _ _ E)
      as [(-> & Hp & Hc) | (port & -> & ->)].
    + rewrite (insert_id _ _ _ Hr). split; cbn.
      * intros k c. rewrite Hp. apply H1.
      * apply H2.
      * intros c Hx. unfold closes. rewrite Hc. apply (H3 c Hx).
    + split; cbn.
      * intros k c. rewrite peers_rekey, lookup_insert.
        case_decide as Ek; [intros [= <-]; subst k; apply lookup_insert_eq|].
        rewrite lookup_delete. case_decide; [done|]. intros Hk.
        pose proof (H1 _ _ Hk) as Hr'.
        rewrite lookup_insert_ne; [done|]. intros <-. congruence.
      * intros c p. rewrite lookup_insert. case_decide; [subst; eauto|].
        apply H2.
      * intros c [Hlt Hx]. cbn in Hlt, Hx.
        rewrite lookup_insert in Hx. case_decide; [done|].
        etrans; [apply (H3 c); by split|].
        apply (closes_rekey_le current_peer _ conn (the_node sys) c).
  - destruct Ht as [H1 H2 H3]. split; cbn.
    + intros k c. rewrite lookup_delete. case_decide; [done|]. apply H1.
    + apply H2.
    + intros c Hx. etrans; [apply (H3 c Hx)|].
      apply (closes_close_le s (pop target (the_node sys)) c).
Qed.

Lemma tracked_run actions sys : tracked sys → tracked (run Web actions sys).
Proof.
  revert sys. induction actions as [|a actions IH]; intros sys Ht; [done|].
  apply (IH (step Web a sys)). by apply tracked_step.
Qed.

(** In [app.py], whatever the threads do, the registry maps no address to
    a socket whose reader has ended, and that socket has been closed. *)
Theorem web_no_stale_entry actions conn :
  let sys := run Web actions initial in
  reader_exited sys conn →
  (∀ key, active_peers (the_node sys) !! key ≠ Some conn)
  ∧ (1 ≤ closes (the_node sys) conn)%nat.
Proof.
  intros sys Hx.
  destruct (tracked_run actions initial tracked_initial) as [H1 _ H3].
  fold sys in H1, H3. split; [|by apply H3].
  intros key Hk. destruct Hx as [_ Hx]. rewrite (H1 _ _ Hk) in Hx. done.
Qed.

Lemma web_no_stale_entry_example :
  let sys := run Web [Accept eph; Deliver 0%nat (Recv (RecvData "CONNECT:8000"));
                      Deliver 0%nat eof] initial in
  (∀ key, active_peers (the_node sys) !! key ≠ Some 0%nat)
  ∧ (1 ≤ closes (the_node sys) 0%nat)%nat.
Proof.
  apply (web_no_stale_entry
           [Accept eph; Deliver 0%nat (Recv (RecvData "CONNECT:8000"));
            Deliver 0%nat eof] 0%nat).
  split; [vm_compute; lia | reflexivity].
Defined.

(** C1 on the command-line program: a connection is accepted, its peer
    declares port 8000 and then closes.  The reader has ended and the
    socket is closed, yet the registry still maps the declared address to
    that socket: the [finally] block looked for the ephemeral address. *)
Theorem C1_cli_leaves_stale_entry :
  let sys := run Cli [Accept eph; Deliver 0%nat (Recv (RecvData "CONNECT:8000"));
                      Deliver 0%nat eof] initial in
  reader_exited sys 0%nat
  ∧ closes (the_node sys) 0%nat = 1%nat
  ∧ active_peers (the_node sys) !! decl = Some 0%nat
  ∧ NoDup (map_to_list (active_peers (the_node sys))).*1.
Proof.
  split_and!.
  - split; [vm_compute; lia | reflexivity].
  - reflexivity.
  - reflexivity.
  - apply entries_unique.
Qed.

(** ** C2: the guard of the re-key *)

(** C2, as stated, fails: the reader of socket 0, started at [far], has
    lost that slot to socket 1; on a CONNECT frame it still deletes the
    entry at [far], which maps to socket 1 and not to its own connection.
    This happens in [app.py] after two racing dials and in the
    command-line program after a re-dial. *)
Lemma C2_rekey_deletes_foreign_entry :
  (readers double_dial !! 0%nat = Some far
   ∧ active_peers (the_node double_dial) !! far = Some 1%nat
   ∧ active_peers (the_node (step Web (Deliver 0%nat (Recv (RecvData "CONNECT:9000")))
                                  double_dial)) !! far = None)
  ∧ (readers redial !! 0%nat = Some far
     ∧ active_peers (the_node redial) !! far = Some 1%nat
     ∧ active_peers (the_node (step Cli (Deliver 0%nat (Recv (RecvData "CONNECT:9001")))
                                    redial)) !! far = None).
Proof. split; vm_compute; done. Qed.

(** C2, amended: on a well-formed CONNECT frame the old address is removed
    from the registry whenever the registry holds an entry there, whichever
    connection that entry maps to (the test is [current_peer in
    active_peers]); then the new address is set to the reader's connection
    and every other address is left as it was. *)
Theorem C2_rekey_removes_old_when_present
    v conn current_peer data field port st :
  PyStr.strip data = "CONNECT:" +:+ field →
  PyStr.int field = Some port →
  let new_peer := (current_peer.1, port) in
  let st' := (loop_body v conn current_peer (RecvData data) st).1 in
  active_peers st' = <[new_peer := conn]> (delete current_peer (active_peers st))
  ∧ (new_peer ≠ current_peer → active_peers st' !! current_peer = None)
  ∧ active_peers st' !! new_peer = Some conn
  ∧ (∀ key, key ≠ current_peer → key ≠ new_peer →
       active_peers st' !! key = active_peers st !! key).
Proof.
  intros Hs Hi new_peer st'. subst st'.
  rewrite (loop_body_connect _ _ _ _ _ _ _ Hs Hi).
  change (active_peers (rekey current_peer new_peer conn st)
          = <[new_peer := conn]> (delete current_peer (active_peers st))
          ∧ (new_peer ≠ current_peer →
             active_peers (rekey current_peer new_peer conn st) !! current_peer = None)
          ∧ active_peers (rekey current_peer new_peer conn st) !! new_peer = Some conn
          ∧ (∀ key, key ≠ current_peer → key ≠ new_peer →
               active_peers (rekey current_peer new_peer conn st) !! key
               = active_peers st !! key)).
  rewrite peers_rekey. split_and!.
  - done.
  - intros Hne. rewrite lookup_insert_ne by done. apply lookup_delete_eq.
  - apply lookup_insert_eq.
  - intros key H1 H2. rewrite lookup_insert_ne by done.
    by rewrite lookup_delete_ne.
Qed.

Lemma C2_rekey_removes_old_when_present_witness :
  let st' := (loop_body Web 0%nat far (RecvData "CONNECT:9000")
                        (the_node double_dial)).1 in
  active_peers st' = <[("10.0.0.9", 9000) := 0%nat]>
                       (delete far (active_peers (the_node double_dial)))
  ∧ (("10.0.0.9", 9000) ≠ far → active_peers st' !! far = None)
  ∧ active_peers st' !! ("10.0.0.9", 9000) = Some 0%nat
  ∧ (∀ key, key ≠ far → key ≠ ("10.0.0.9", 9000) →
       active_peers st' !! key = active_peers (the_node double_dial) !! key).
Proof.
  apply (C2_rekey_removes_old_when_present Web 0%nat far "CONNECT:9000" "9000" 9000);
    reflexivity.
Defined.

(** ** C3: the guard of the removal on exit *)

(** C3, as stated, fails: in [app.py], after the second handshake at
    [decl] evicted socket 0, the slot at [decl] belongs to socket 1; the
    reader of socket 0 then fails its read and its [finally] block deletes
    that slot, while socket 1 is open and its reader runs. *)
Lemma C3_exit_deletes_newer_slot :
  let before := collision Web in
  let after := step Web (Deliver 0%nat (Recv RecvRaises)) before in
  readers before !! 0%nat = Some decl
  ∧ active_peers (the_node before) !! decl = Some 1%nat
  ∧ active_peers (the_node after) !! decl = None
  ∧ readers after !! 1%nat = Some decl
  ∧ closes (the_node after) 1%nat = 0%nat.
Proof. vm_compute. done. Qed.

(** C3, amended: whenever a turn of the reader leaves the loop (shutdown,
    empty read, exit frame or exception), it removes its current peer
    address from the registry if an entry is present there, whichever
    connection the entry maps to, leaves the other addresses alone, and
    closes its own socket once. *)
Theorem C3_exit_removes_current_when_present
    v conn current_peer e st st' :
  reader_step v conn current_peer e st = (st', None) →
  active_peers st' = delete current_peer (active_peers st)
  ∧ closes st' conn = S (closes st conn)
  ∧ (∀ s, s ≠ conn → closes st' s = closes st s).
Proof.
  unfold reader_step. destruct e as [|r].
  - intros [= <-]. rewrite peers_finally. split_and!; [done|..].
    + rewrite closes_finally. by rewrite decide_True.
    + intros s Hs. rewrite closes_finally. by rewrite decide_False.
  - destruct (loop_body v conn current_peer r st) as [st1 [p|]] eqn:E;
      [done|]. intros [= <-].
    destruct (loop_body_break _ _ _ _ _ _ E) as [Hp Hc].
    assert (∀ s, closes st1 s = closes st s) as Hcl
      by (intros s; unfold closes; by rewrite Hc).
    rewrite peers_finally, Hp. split_and!; [done|..].
    + rewrite closes_finally, decide_True by done. by rewrite Hcl.
    + intros s Hs. rewrite closes_finally, decide_False by done. apply Hcl.
Qed.

Lemma C3_exit_removes_current_when_present_witness :
  let st := the_node (collision Web) in
  let st' := (reader_step Web 0%nat decl (Recv RecvRaises) st).1 in
  active_peers st' = delete decl (active_peers st)
  ∧ closes st' 0%nat = S (closes st 0%nat)
  ∧ (∀ s, s ≠ 0%nat → closes st' s = closes st s).
Proof.
  apply (C3_exit_removes_current_when_present Web 0%nat decl (Recv RecvRaises)).
  reflexivity.
Defined.

(** ** C4: the reader's current peer address *)

(** C4, as stated, fails for the command-line program: after the frame
    CONNECT:8000 its reader still holds the ephemeral address, and tags
    the next message with it. *)
Lemma C4_cli_keeps_ephemeral_address :
  let registered := accept_conn eph 0%nat empty_node in
  (handle_client Cli 0%nat eph [Recv (RecvData "CONNECT:8000")] registered).2
  = Some eph
  ∧ eph ≠ decl
  ∧ last (stdout (handle_client Cli 0%nat eph
                    [Recv (RecvData "CONNECT:8000"); Recv (RecvData "hello")]
                    registered).1)
    = Some (MessageFrom eph "hello").
Proof. vm_compute. done. Qed.

(** C4, amended: after a well-formed CONNECT frame the reader of [app.py]
    holds the declared address as its current peer address, tags the
    following chat message with it on display and in the chat history, and
    removes that address on exit; the reader of the command-line program
    keeps the address it was started with and displays the following chat
    message under it, as its docstring announces. *)
Theorem C4_current_peer_after_connect
    v conn current_peer data field port chat st :
  PyStr.strip data = "CONNECT:" +:+ field →
  PyStr.int field = Some port →
  PyStr.is_empty (PyStr.strip chat) = false →
  PyStr.startswith "CONNECT:" (PyStr.strip chat) = false →
  String.eqb (PyStr.lower (PyStr.strip chat)) "exit" = false →
  let tag := match v with Web => (current_peer.1, port) | Cli => current_peer end in
  let run2 := handle_client v conn current_peer
                [Recv (RecvData data); Recv (RecvData chat)] st in
  (handle_client v conn current_peer [Recv (RecvData data)] st).2 = Some tag
  ∧ run2.2 = Some tag
  ∧ last (stdout run2.1) = Some (MessageFrom tag (PyStr.strip chat))
  ∧ match v with
    | Web =>
        last (chat_history run2.1) = Some (label tag, PyStr.strip chat)
        ∧ active_peers (handle_client Web conn current_peer
                          [Recv (RecvData data); ShutdownSet] st).1 !! tag = None
    | Cli => chat_history run2.1 = chat_history st
    end.
Proof.
  intros Hs Hi He Hc Hx tag run2. subst run2.
  rewrite !(handle_client_connect _ _ _ _ _ _ _ _ Hs Hi). fold tag.
  cbn [handle_client]. unfold reader_step.
  rewrite (loop_body_chat _ _ _ _ _ He Hc Hx).
  split_and!; [done | done | |].
  - destruct v; apply last_snoc.
  - destruct v.
    + apply chat_history_rekey.
    + split.
      * cbn [fst deliver add_chat_message chat_history]. apply last_snoc.
      * cbn [fst]. rewrite peers_finally. apply lookup_delete_eq.
Qed.

Lemma C4_current_peer_after_connect_witness :
  let st := accept_conn eph 0%nat empty_node in
  let run2 := handle_client Web 0%nat eph
                [Recv (RecvData "CONNECT:8000"); Recv (RecvData "hello")] st in
  (handle_client Web 0%nat eph [Recv (RecvData "CONNECT:8000")] st).2 = Some decl
  ∧ run2.2 = Some decl
  ∧ last (stdout run2.1) = Some (MessageFrom decl (PyStr.strip "hello"))
  ∧ last (chat_history run2.1) = Some (label decl, PyStr.strip "hello")
  ∧ active_peers (handle_client Web 0%nat eph
                    [Recv (RecvData "CONNECT:8000"); ShutdownSet] st).1 !! decl = None.
Proof.
  apply (C4_current_peer_after_connect Web 0%nat eph "CONNECT:8000" "8000" 8000 "hello");
    reflexivity.
Defined.

(** ** C5: the handshake *)

(** C5: an accepted connection registered under its ephemeral address
    whose peer then sends the frame of [connect_to_peer] for another port
    is afterwards registered under the declared address, with the same
    socket, and no longer under the ephemeral one. *)
Theorem C5_handshake_rekey v host p_eph p_decl conn st :
  p_decl ≠ p_eph →
  let registered := accept_conn (host, p_eph) conn st in
  let st' := (handle_client v conn (host, p_eph)
                [Recv (RecvData (connect_msg p_decl))] registered).1 in
  active_peers registered !! (host, p_eph) = Some conn
  ∧ active_peers st' !! (host, p_decl) = Some conn
  ∧ active_peers st' !! (host, p_eph) = None.
Proof.
  intros Hne registered st'. subst st'.
  unfold handle_client, reader_step. rewrite loop_body_connect_msg.
  change (active_peers registered !! (host, p_eph) = Some conn
          ∧ active_peers (rekey (host, p_eph) (host, p_decl) conn registered)
              !! (host, p_decl) = Some conn
          ∧ active_peers (rekey (host, p_eph) (host, p_decl) conn registered)
              !! (host, p_eph) = None).
  rewrite peers_rekey. split_and!.
  - apply lookup_insert_eq.
  - apply lookup_insert_eq.
  - rewrite lookup_insert_ne by congruence. apply lookup_delete_eq.
Qed.

Lemma C5_handshake_rekey_witness :
  let registered := accept_conn ("10.0.0.5", 54321) 0%nat empty_node in
  let st' := (handle_client Cli 0%nat ("10.0.0.5", 54321)
                [Recv (RecvData (connect_msg 8000))] registered).1 in
  active_peers registered !! ("10.0.0.5", 54321) = Some 0%nat
  ∧ active_peers st' !! ("10.0.0.5", 8000) = Some 0%nat
  ∧ active_peers st' !! ("10.0.0.5", 54321) = None.
Proof. apply (C5_handshake_rekey Cli "10.0.0.5" 54321 8000 0%nat). discriminate. Defined.

(** ** C6: eviction *)




(** ** C7: re-keying twice *)

(** C7: the re-key step run twice in succession for the same old address
    [A], new address [B] (another address) and connection leaves exactly
    one entry at [B], mapped to the connection, and none at [A]; the
    second run does not change the registry. *)
Theorem C7_rekey_twice A B conn st :
  A ≠ B →
  let once := rekey A B conn st in
  let twice := rekey A B conn once in
  entries_at B twice = [(B, conn)]
  ∧ entries_at A twice = []
  ∧ active_peers twice = active_peers once.
Proof.
  intros Hne once twice.
  assert (active_peers twice = active_peers once) as E.
  { subst twice once. rewrite !peers_rekey. apply map_eq. intros key.
    destruct (decide (key = B)) as [->|HB]; [by rewrite !lookup_insert_eq|].
    rewrite !(lookup_insert_ne _ B key) by done.
    destruct (decide (key = A)) as [->|HA]; [by rewrite !lookup_delete_eq|].
    rewrite (lookup_delete_ne _ A key) by done.
    by rewrite lookup_insert_ne. }
  split_and!; [| |done].
  - apply entries_at_Some. rewrite E. subst once. rewrite peers_rekey.
    apply lookup_insert_eq.
  - apply entries_at_None. rewrite E. subst once. rewrite peers_rekey.
    rewrite lookup_insert_ne by done. apply lookup_delete_eq.
Qed.

Lemma C7_rekey_twice_witness :
  let once := rekey eph decl 0%nat (accept_conn eph 0%nat empty_node) in
  let twice := rekey eph decl 0%nat once in
  entries_at decl twice = [(decl, 0%nat)]
  ∧ entries_at eph twice = []
  ∧ active_peers twice = active_peers once.
Proof. apply (C7_rekey_twice eph decl 0%nat). discriminate. Defined.

(** The second of two such re-keys finds the connection itself at the new
    address and closes its socket: the command-line reader, which keeps
    the old address, does this on a repeated CONNECT frame. *)
Lemma rekey_again_closes_own_socket A B conn st :
  A ≠ B →
  closes (rekey A B conn (rekey A B conn st)) conn
  = S (closes (rekey A B conn st) conn).
Proof.
  intros Hne. rewrite (closes_rekey A B conn (rekey A B conn st)).
  rewrite peers_rekey, lookup_delete_ne, lookup_insert_eq by done.
  by rewrite decide_True.
Qed.

(** ** C8: what the caller of send and connect learns *)

(** C8, as stated, fails: a send that cannot connect, a send whose write
    fails and a send that succeeds return the same value, and so do the
    three kinds of connect. *)
Lemma C8_result_does_not_tell :
  (wrote far ConnectRaises true empty_node = false
   ∧ wrote far (Connected 0%nat far) false empty_node = false
   ∧ wrote far (Connected 0%nat far) true empty_node = true)
  ∧ returned (send_message far "hello" ConnectRaises true empty_node)
    = returned (send_message far "hello" (Connected 0%nat far) true empty_node)
  ∧ returned (send_message far "hello" (Connected 0%nat far) false empty_node)
    = returned (send_message far "hello" (Connected 0%nat far) true empty_node)
  ∧ returned (connect_to_peer 9000 far ConnectRaises true empty_node)
    = returned (connect_to_peer 9000 far (Connected 0%nat far) true empty_node)
  ∧ returned (connect_to_peer 9000 far (Connected 0%nat far) false empty_node)
    = returned (connect_to_peer 9000 far (Connected 0%nat far) true empty_node).
Proof. vm_compute. done. Qed.

(** C8, amended: every call of send and of connect returns [None]; a
    connect failure or a write failure inside them shows only in the last
    line printed, which is an error line exactly when the payload was not
    written.  A write failure, in send and in connect, removes the target
    from the registry and closes the socket once; a connect failure
    leaves the registry and the sockets as they were; a successful
    connect message closes nothing and removes nothing. *)
Theorem C8_failures_are_only_logged my_listen_port target message dial send_ok st :
  let sent := send_message target message dial send_ok st in
  let connected := connect_to_peer my_listen_port target dial send_ok st in
  returned sent = PyNone
  ∧ returned connected = PyNone
  ∧ is_error <$> last (stdout (after sent))
    = Some (negb (wrote target dial send_ok st))
  ∧ is_error <$> last (stdout (after connected))
    = Some (negb (wrote target dial send_ok st))
  ∧ match get_or_create target dial st with
    | (st1, Some (s, _)) =>
        if send_ok
        then active_peers (after connected) = active_peers st1
             ∧ close_calls (after connected) = close_calls st
        else active_peers (after sent) !! target = None
             ∧ closes (after sent) s = S (closes st s)
             ∧ active_peers (after connected) !! target = None
             ∧ closes (after connected) s = S (closes st s)
             ∧ (∀ key, key ≠ target →
                  active_peers (after sent) !! key = active_peers st1 !! key
                  ∧ active_peers (after connected) !! key = active_peers st1 !! key)
    | (st1, None) =>
        active_peers (after sent) = active_peers st
        ∧ close_calls (after sent) = close_calls st
        ∧ after connected = after sent
    end.
Proof.
  intros sent connected. subst sent connected.
  unfold send_message, connect_to_peer, wrote, get_or_create.
  destruct (active_peers st !! target) as [s|]; [|destruct dial as [s pn|]];
    destruct send_ok; cbn [fst snd];
    try destruct (String.eqb (PyStr.lower message) "exit");
    cbn [returned after stdout teardown dial_register close pop with_peers
           print assign active_peers close_calls];
    rewrite ?last_snoc; split_and!; try done;
    first [ apply lookup_delete_eq
          | unfold teardown; by rewrite closes_close_eq
          | intros key Hk; by rewrite lookup_delete_ne ].
Qed.

(** A failed write tears the target down: its address leaves the registry
    and the socket is closed; a failed connect leaves the registry as it
    was. *)
Lemma write_failure_teardown target message dial st st1 s thread :
  get_or_create target dial st = (st1, Some (s, thread)) →
  let out := send_message target message dial false st in
  active_peers (after out) !! target = None
  ∧ closes (after out) s = S (closes st1 s).
Proof.
  intros Hg out. subst out. unfold send_message. rewrite Hg. cbn [after].
  unfold teardown. split; [apply lookup_delete_eq | by rewrite closes_close_eq].
Qed.

Lemma connect_failure_no_mutation target message st :
  active_peers st !! target = None →
  active_peers (after (send_message target message ConnectRaises true st))
  = active_peers st.
Proof. intros H. unfold send_message, get_or_create. by rewrite H. Qed.

(** ** C9: the exit word sent *)

(** C9: if [send_message] obtains a socket and the write succeeds, then
    for a payload that is the exit word in any letter case the target
    address is absent from the registry afterwards and the socket has
    received one more [close()]; for any other payload the registry is
    what the lookup or the dial left (the entry found under the target is
    kept, a dialed socket stays registered under the address it reports)
    and no socket is closed. *)
Theorem C9_exit_sentinel target message dial st st1 s thread :
  get_or_create target dial st = (st1, Some (s, thread)) →
  let out := send_message target message dial true st in
  match active_peers st !! target with
  | Some found => s = found ∧ active_peers st1 = active_peers st
  | None => ∃ peername, dial = Connected s peername
                        ∧ active_peers st1 = <[peername := s]> (active_peers st)
  end
  ∧ if String.eqb (PyStr.lower message) "exit"
    then active_peers (after out) !! target = None
         ∧ closes (after out) s = S (closes st s)
    else active_peers (after out) = active_peers st1
         ∧ ∀ s', closes (after out) s' = closes st s'.
Proof.
  intros Hg out. subst out. unfold send_message. rewrite Hg.
  assert (∀ s', closes st1 s' = closes st s') as Hcl.
  { intros s'. unfold get_or_create in Hg.
    destruct (active_peers st !! target); [by simplify_eq|].
    destruct dial; by simplify_eq. }
  split.
  - unfold get_or_create in Hg.
    destruct (active_peers st !! target); [by simplify_eq|].
    destruct dial; simplify_eq. eauto.
  - destruct (String.eqb (PyStr.lower message) "exit"); cbn [after].
    + unfold teardown. split; [apply lookup_delete_eq|].
      rewrite closes_close_eq. f_equal. apply Hcl.
    + split; [done|]. intros s'. apply Hcl.
Qed.

Lemma C9_exit_sentinel_witness :
  let st := accept_conn far 0%nat empty_node in
  let out := send_message far "EXIT" ConnectRaises true st in
  (0%nat = 0%nat ∧ active_peers st = active_peers st)
  ∧ active_peers (after out) !! far = None
  ∧ closes (after out) 0%nat = S (closes st 0%nat).
Proof.
  apply (C9_exit_sentinel far "EXIT" ConnectRaises
           (accept_conn far 0%nat empty_node) (accept_conn far 0%nat empty_node)
           0%nat None).
  reflexivity.
Defined.

(** The exit word in every letter case, and a payload that only contains
    it. *)
Example exit_sentinel_cases :
  let st := accept_conn far 0%nat empty_node in
  active_peers (after (send_message far "exit" ConnectRaises true st)) !! far = None
  ∧ active_peers (after (send_message far "eXiT" ConnectRaises true st)) !! far = None
  ∧ active_peers (after (send_message far "team: exit" ConnectRaises true st)) !! far
    = Some 0%nat.
Proof. vm_compute. done. Qed.

(** ** C10: the dispatch of control frames *)

Lemma lower_char_e c :
  Ascii.eqb (PyStr.lower_char c) "e" = same_letter "e" c.
Proof. destruct c as [[] [] [] [] [] [] [] []]; reflexivity. Qed.

Lemma lower_char_x c :
  Ascii.eqb (PyStr.lower_char c) "x" = same_letter "x" c.
Proof. destruct c as [[] [] [] [] [] [] [] []]; reflexivity. Qed.

Lemma lower_char_i c :
  Ascii.eqb (PyStr.lower_char c) "i" = same_letter "i" c.
Proof. destruct c as [[] [] [] [] [] [] [] []]; reflexivity. Qed.

Lemma lower_char_t c :
  Ascii.eqb (PyStr.lower_char c) "t" = same_letter "t" c.
Proof. destruct c as [[] [] [] [] [] [] [] []]; reflexivity. Qed.

(** [message.lower() == "exit"] holds exactly for the sixteen spellings of
    the word. *)
Lemma lower_is_exit message :
  String.eqb (PyStr.lower message) "exit" = equal_nocase "exit" message.
Proof.
  destruct message as [|c1 [|c2 [|c3 [|c4 [|c5 message]]]]];
    cbn [PyStr.lower String.eqb equal_nocase];
    rewrite ?lower_char_e, ?lower_char_x, ?lower_char_i, ?lower_char_t;
    repeat destruct (same_letter _ _); done.
Qed.

Lemma nocase_connect_is_chat message :
  prefix_nocase "connect:" message = true →
  PyStr.is_empty message = false
  ∧ String.eqb (PyStr.lower message) "exit" = false.
Proof.
  destruct message as [|c message]; [done|]. split; [done|].
  rewrite lower_is_exit. cbn [prefix_nocase equal_nocase] in *.
  apply andb_prop in H as [Hc _]. apply andb_false_intro1.
  destruct c as [[] [] [] [] [] [] [] []]; try reflexivity; discriminate Hc.
Qed.

(** C10: a frame whose trimmed text does not begin with exactly
    [CONNECT:] leaves the registry and the sockets untouched.  A frame
    that begins with that prefix in another letter case is forwarded as an
    ordinary chat message: it is displayed under the current peer address
    (and, in [app.py], appended to the chat history), the reader goes on
    and nothing is re-keyed.  A frame that is the exit word in any letter
    case ends the loop with the exit line and is not forwarded. *)
Theorem C10_connect_prefix_case_sensitive v conn current_peer other data bye st :
  PyStr.startswith "CONNECT:" (PyStr.strip other) = false →
  prefix_nocase "connect:" (PyStr.strip data) = true →
  PyStr.startswith "CONNECT:" (PyStr.strip data) = false →
  equal_nocase "exit" (PyStr.strip bye) = true →
  let none := loop_body v conn current_peer (RecvData other) st in
  let chat := loop_body v conn current_peer (RecvData data) st in
  let left := loop_body v conn current_peer (RecvData bye) st in
  (active_peers none.1 = active_peers st ∧ close_calls none.1 = close_calls st)
  ∧ (chat.2 = Continue current_peer
     ∧ active_peers chat.1 = active_peers st
     ∧ close_calls chat.1 = close_calls st
     ∧ stdout chat.1
       = (stdout st ++ [MessageFrom current_peer (PyStr.strip data)])%list
     ∧ chat_history chat.1
       = match v with
         | Web => (chat_history st
                   ++ [(label current_peer, PyStr.strip data)])%list
         | Cli => chat_history st
         end)
  ∧ (left.2 = Break
     ∧ active_peers left.1 = active_peers st
     ∧ close_calls left.1 = close_calls st
     ∧ stdout left.1 = (stdout st ++ [InfoSentExit current_peer])%list
     ∧ chat_history left.1 = chat_history st).
Proof.
  intros Ho Hd Hc Hb none chat left. subst none chat left.
  split; [|split].
  - unfold loop_body. rewrite Ho.
    destruct (PyStr.is_empty other); [done|].
    destruct (PyStr.is_empty (PyStr.strip other)); [done|].
    destruct (String.eqb (PyStr.lower (PyStr.strip other)) "exit"); [done|].
    cbn [fst]. by rewrite peers_deliver, close_calls_deliver.
  - destruct (nocase_connect_is_chat _ Hd) as [He Hx].
    rewrite (loop_body_chat _ _ _ _ _ He Hc Hx). by destruct v.
  - assert (String.eqb (PyStr.lower (PyStr.strip bye)) "exit" = true) as Hx
      by (by rewrite lower_is_exit).
    assert (PyStr.is_empty (PyStr.strip bye) = false) as He
      by (destruct (PyStr.strip bye); [discriminate Hb | done]).
    assert (PyStr.is_empty bye = false) as Hbye by (by destruct bye).
    assert (PyStr.startswith "CONNECT:" (PyStr.strip bye) = false) as Hp.
    { destruct (PyStr.strip bye) as [|c r]; [done|].
      cbn [equal_nocase PyStr.startswith] in *.
      apply andb_prop in Hb as [Hb _]. apply andb_false_intro1.
      destruct c as [[] [] [] [] [] [] [] []]; try reflexivity; discriminate Hb. }
    unfold loop_body. by rewrite Hbye, He, Hp, Hx.
Qed.

Lemma C10_connect_prefix_case_sensitive_witness :
  let st := accept_conn eph 0%nat empty_node in
  let none := loop_body Web 0%nat eph (RecvData "hello") st in
  let chat := loop_body Web 0%nat eph (RecvData " connect:8000 ") st in
  let left := loop_body Web 0%nat eph (RecvData "ExIt") st in
  (active_peers none.1 = active_peers st ∧ close_calls none.1 = close_calls st)
  ∧ (chat.2 = Continue eph
     ∧ active_peers chat.1 = active_peers st
     ∧ close_calls chat.1 = close_calls st
     ∧ stdout chat.1 = (stdout st ++ [MessageFrom eph "connect:8000"])%list
     ∧ chat_history chat.1
       = (chat_history st ++ [(label eph, "connect:8000")])%list)
  ∧ (left.2 = Break
     ∧ active_peers left.1 = active_peers st
     ∧ close_calls left.1 = close_calls st
     ∧ stdout left.1 = (stdout st ++ [InfoSentExit eph])%list
     ∧ chat_history left.1 = chat_history st).
Proof.
  apply (C10_connect_prefix_case_sensitive Web 0%nat eph
           "hello" " connect:8000 " "ExIt"); reflexivity.
Defined.

(** The exit word is matched in any letter case, the CONNECT prefix is
    not. *)
Example dispatch_cases :
  let st := accept_conn eph 0%nat empty_node in
  (loop_body Cli 0%nat eph (RecvData "ExIt") st).2 = Break
  ∧ (loop_body Cli 0%nat eph (RecvData "Connect:8000") st).2 = Continue eph
  ∧ active_peers (loop_body Cli 0%nat eph (RecvData "Connect:8000") st).1 !! decl = None
  ∧ active_peers (loop_body Cli 0%nat eph (RecvData "CONNECT:8000") st).1 !! decl = Some 0%nat.
Proof. vm_compute. done. Qed.

(** A separator that [strip] would remove is not white space for [int]:
    the frame is reported as invalid and the registry is left alone. *)
Example separator_before_port_is_invalid :
  let st := accept_conn eph 0%nat empty_node in
  PyStr.strip (String "031" "12") = "12"
  ∧ PyStr.int (String "031" "12") = None
  ∧ loop_body Web 0%nat eph (RecvData ("CONNECT:" +:+ String "031" "12")) st
    = (print (ErrInvalidConnect eph) st, Continue eph).
Proof. vm_compute. done. Qed.

(** * Further properties of the code *)

(** ** The reader *)

Lemma stdout_rekey current_peer new_peer conn st :
  stdout (rekey current_peer new_peer conn st) = stdout st.
Proof.
  unfold rekey, pop_if_present. destruct (active_peers st !! current_peer);
    by match goal with |- context [match ?x with _ => _ end] => destruct x end.
Qed.

Lemma stdout_finally conn current_peer st :
  stdout (finally_block conn current_peer st) = stdout st.
Proof.
  unfold finally_block, pop_if_present.
  by destruct (active_peers st !! current_peer).
Qed.

Lemma chat_history_finally conn current_peer st :
  chat_history (finally_block conn current_peer st) = chat_history st.
Proof.
  unfold finally_block, pop_if_present.
  by destruct (active_peers st !! current_peer).
Qed.

(** What an iteration adds to the output and to the chat history. *)
Lemma loop_body_appends v conn current_peer r st :
  ∃ (extra : list line) (chat : list (string * string)),
    stdout (loop_body v conn current_peer r st).1 = (stdout st ++ extra)%list
    ∧ chat_history (loop_body v conn current_peer r st).1
      = (chat_history st ++ chat)%list
    ∧ (∀ p m, MessageFrom p m ∈ extra → p = current_peer)
    ∧ match v with Cli => chat = [] | Web => True end.
Proof.
  assert (∀ l, (∀ p m, l ≠ MessageFrom p m) →
               ∀ p m, MessageFrom p m ∈ [l] → p = current_peer) as Hother.
  { intros l Hl p m H%list_elem_of_singleton. by destruct (Hl p m). }
  unfold loop_body.
  repeat match goal with
         | |- context [match ?x with _ => _ end] =>
             lazymatch x with
             | v => fail
             | _ => destruct x
             end
         end; cbn [fst].
  all: try (eexists [_], []; cbn [stdout chat_history print];
            rewrite ?app_nil_r, ?stdout_rekey, ?chat_history_rekey;
            split_and!; [done | done | by apply Hother | by destruct v]).
  - exists [], []. rewrite !app_nil_r. split_and!; [done | done | | by destruct v].
    intros p m H. by apply elem_of_nil in H.
  - destruct v.
    + exists [MessageFrom current_peer (PyStr.strip data)], [].
      rewrite app_nil_r. split_and!; [done | done | | done].
      by intros p m [= -> _]%list_elem_of_singleton.
    + exists [MessageFrom current_peer (PyStr.strip data)],
             [(label current_peer, PyStr.strip data)].
      split_and!; [done | done | | done].
      by intros p m [= -> _]%list_elem_of_singleton.
Qed.

Lemma reader_step_appends v conn current_peer e st :
  ∃ (extra : list line) (chat : list (string * string)),
    stdout (reader_step v conn current_peer e st).1 = (stdout st ++ extra)%list
    ∧ chat_history (reader_step v conn current_peer e st).1
      = (chat_history st ++ chat)%list
    ∧ (∀ p m, MessageFrom p m ∈ extra → p = current_peer)
    ∧ match v with Cli => chat = [] | Web => True end.
Proof.
  destruct e as [|r]; cbn [reader_step].
  - exists [], []. cbn [fst].
    rewrite stdout_finally, chat_history_finally, !app_nil_r.
    split_and!; [done | done | | by destruct v].
    intros p m H. by apply elem_of_nil in H.
  - destruct (loop_body_appends v conn current_peer r st)
      as (extra & chat & H1 & H2 & H3 & H4).
    exists extra, chat.
    destruct (loop_body v conn current_peer r st) as [st1 [p|]]; cbn [fst] in *;
      rewrite ?stdout_finally, ?chat_history_finally; done.
Qed.

Lemma reader_step_peer v conn current_peer e st p :
  (reader_step v conn current_peer e st).2 = Some p →
  match v with Cli => p = current_peer | Web => p.1 = current_peer.1 end.
Proof.
  destruct e as [|r]; cbn [reader_step]; [done|].
  destruct (loop_body v conn current_peer r st) as [st1 [q|]] eqn:E; [|done].
  intros [= ->].
  destruct (loop_body_continue _ _ _ _ _ _ _ E) as [(-> & _) | (port & -> & _)];
    by destruct v.
Qed.

(** The reader never changes the host of its current peer address: a
    CONNECT frame replaces the port only.  In the command-line program
    the address never changes at all. *)
Theorem reader_keeps_host v conn addr events st p :
  (handle_client v conn addr events st).2 = Some p →
  match v with Cli => p = addr | Web => p.1 = addr.1 end.
Proof.
  revert addr st. induction events as [|e events IH]; intros addr st.
  - intros [= <-]. by destruct v.
  - cbn [handle_client].
    pose proof (reader_step_peer v conn addr e st) as Hp.
    destruct (reader_step v conn addr e st) as [st1 [q|]]; [|done].
    intros H. specialize (IH _ _ H). specialize (Hp q eq_refl).
    destruct v; [by subst | congruence].
Qed.

Lemma reader_keeps_host_witness :
  match Web with Cli => decl = eph | Web => decl.1 = eph.1 end.
Proof.
  apply (reader_keeps_host Web 0%nat eph
           [Recv (RecvData "CONNECT:9000"); Recv (RecvData "CONNECT:8000")]
           (accept_conn eph 0%nat empty_node)).
  reflexivity.
Defined.

(** The docstring of the command-line reader: whatever frames arrive,
    every message it displays is shown under the address the connection
    was accepted or dialed with, and its output only grows. *)
Theorem cli_displays_original_address conn addr events st :
  ∃ extra : list line,
    stdout (handle_client Cli conn addr events st).1 = (stdout st ++ extra)%list
    ∧ ∀ p m, MessageFrom p m ∈ extra → p = addr.
Proof.
  revert st. induction events as [|e events IH]; intros st.
  - exists []. rewrite app_nil_r. split; [done|].
    intros p m H. by apply elem_of_nil in H.
  - cbn [handle_client].
    destruct (reader_step_appends Cli conn addr e st)
      as (extra & chat & H1 & _ & H3 & _).
    pose proof (reader_step_peer Cli conn addr e st) as Hp.
    destruct (reader_step Cli conn addr e st) as [st1 [q|]]; cbn [fst snd] in *.
    + rewrite (Hp q eq_refl). destruct (IH st1) as (extra' & E & H').
      exists (extra ++ extra')%list. rewrite E, H1, app_assoc. split; [done|].
      intros p m [H|H]%elem_of_app; eauto.
    + exists extra. eauto.
Qed.



Lemma reader_step_other_host v conn current_peer e st key :
  key.1 ≠ current_peer.1 →
  active_peers (reader_step v conn current_peer e st).1 !! key
  = active_peers st !! key.
Proof.
  intros Hk.
  assert (key ≠ current_peer) as Hne by (intros ->; done).
  assert (∀ st1, active_peers st1 = active_peers st →
                 active_peers (finally_block conn current_peer st1) !! key
                 = active_peers st !! key) as Hfin.
  { intros st1 E. by rewrite peers_finally, E, lookup_delete_ne. }
  destruct e as [|r]; cbn [reader_step]; [by apply Hfin|].
  destruct (loop_body v conn current_peer r st) as [st1 [p|]] eqn:E; cbn [fst].
  - destruct (loop_body_continue _ _ _ _ _ _ _ E) as [(_ & -> & _) | (port & _ & ->)];
      [done|].
    cbn [print active_peers]. rewrite peers_rekey.
    rewrite lookup_insert_ne by (intros <-; done).
    by rewrite lookup_delete_ne.
  - apply Hfin. by destruct (loop_body_break _ _ _ _ _ _ E).
Qed.

(** Whatever a peer sends, and however its reader ends, the reader changes
    registry entries of its own host only: an address with another host
    maps to the same connection, or to none, before and after. *)
Theorem reader_touches_own_host_only v conn addr events st key :
  key.1 ≠ addr.1 →
  active_peers (handle_client v conn addr events st).1 !! key
  = active_peers st !! key.
Proof.
  revert addr st. induction events as [|e events IH]; intros addr st Hk; [done|].
  cbn [handle_client].
  pose proof (reader_step_other_host v conn addr e st key Hk) as Hs.
  pose proof (reader_step_peer v conn addr e st) as Hp.
  destruct (reader_step v conn addr e st) as [st1 [p|]]; cbn [fst snd] in *;
    [|done].
  rewrite IH, Hs; [done|]. specialize (Hp p eq_refl).
  destruct v; [by subst | congruence].
Qed.

Lemma reader_touches_own_host_only_witness :
  let st := accept_conn eph 0%nat (accept_conn far 1%nat empty_node) in
  active_peers (handle_client Web 0%nat eph
                  [Recv (RecvData "CONNECT:7000"); Recv (RecvData "exit")] st).1 !! far
  = active_peers st !! far.
Proof.
  apply (reader_touches_own_host_only Web 0%nat eph
           [Recv (RecvData "CONNECT:7000"); Recv (RecvData "exit")]
           (accept_conn eph 0%nat (accept_conn far 1%nat empty_node)) far).
  vm_compute. discriminate.
Defined.

Lemma lstrip_all_space s : all_space s = true → PyStr.lstrip s = EmptyString.
Proof.
  induction s as [|c s IH]; [done|]. cbn [all_space PyStr.lstrip].
  intros [-> Hs]%andb_prop. auto.
Qed.

(** A frame of white space only is not the end of the stream: the reader
    drops it, changes nothing and goes on with the same address.  Only
    the empty read ends the reader as a closed connection. *)
Theorem blank_frame_is_ignored v conn current_peer data st :
  PyStr.is_empty data = false →
  all_space data = true →
  loop_body v conn current_peer (RecvData data) st = (st, Continue current_peer)
  ∧ loop_body v conn current_peer (RecvData EmptyString) st
    = (print (InfoClosedBy current_peer) st, Break).
Proof.
  intros Hd Hs. split; [|done].
  unfold loop_body. rewrite Hd. unfold PyStr.strip.
  by rewrite (lstrip_all_space _ Hs).
Qed.

Lemma blank_frame_is_ignored_witness :
  loop_body Cli 0%nat eph (RecvData (String "010" " ")) empty_node
  = (empty_node, Continue eph)
  ∧ loop_body Cli 0%nat eph (RecvData EmptyString) empty_node
    = (print (InfoClosedBy eph) empty_node, Break).
Proof.
  apply (blank_frame_is_ignored Cli 0%nat eph (String "010" " ") empty_node);
    reflexivity.
Defined.

(** The frame [connect_to_peer] formats for a listening port is read back
    by the reader as that port, for every integer: trimming leaves it as
    it is, it has the prefix, the field after the first colon is the
    decimal text, and [int] of that text is the port. *)
Theorem connect_frame_round_trip my_listen_port :
  PyStr.strip (connect_msg my_listen_port) = connect_msg my_listen_port
  ∧ PyStr.startswith "CONNECT:" (connect_msg my_listen_port) = true
  ∧ PyStr.split1 ":" (connect_msg my_listen_port) !! 1%nat
    = Some (PyStr.str my_listen_port)
  ∧ PyStr.int (PyStr.str my_listen_port) = Some my_listen_port.
Proof.
  split_and!; [|done|done|apply int_str].
  apply strip_no_space. unfold connect_msg.
  apply (no_space_app "CONNECT:"); [done | apply no_space_str].
Qed.

Lemma close_calls_rekey_same addr conn st :
  close_calls (rekey addr addr conn st) = close_calls st
  ∧ active_peers (rekey addr addr conn st) = <[addr := conn]> (active_peers st).
Proof.
  split.
  - unfold rekey. rewrite peers_pop_if_present, lookup_delete_eq.
    unfold pop_if_present. by destruct (active_peers st !! addr).
  - rewrite peers_rekey. apply insert_delete_eq.
Qed.

(** A CONNECT frame that declares the port the reader already holds closes
    no socket: the reader's connection is (re)registered at that address,
    also when another connection held the slot, which is then displaced
    without being closed. *)
Theorem connect_to_own_address_closes_nothing
    v conn current_peer data field st :
  PyStr.strip data = "CONNECT:" +:+ field →
  PyStr.int field = Some current_peer.2 →
  let res := loop_body v conn current_peer (RecvData data) st in
  close_calls res.1 = close_calls st
  ∧ active_peers res.1 = <[current_peer := conn]> (active_peers st)
  ∧ res.2 = Continue current_peer.
Proof.
  intros Hs Hi res. subst res.
  rewrite (loop_body_connect _ _ _ _ _ _ _ Hs Hi).
  rewrite <- (surjective_pairing current_peer). cbn [fst snd print close_calls active_peers].
  destruct (close_calls_rekey_same current_peer conn st) as [-> ->].
  split_and!; [done | done | by destruct v].
Qed.

Lemma connect_to_own_address_closes_nothing_witness :
  let st := the_node double_dial in
  let res := loop_body Web 0%nat far (RecvData "CONNECT:7000") st in
  close_calls res.1 = close_calls st
  ∧ active_peers res.1 = <[far := 0%nat]> (active_peers st)
  ∧ res.2 = Continue far.
Proof.
  apply (connect_to_own_address_closes_nothing Web 0%nat far "CONNECT:7000" "7000");
    reflexivity.
Defined.

(** In [app.py] a CONNECT frame received twice in a row is harmless: the
    second one changes neither the registry nor any socket nor the
    reader's address. *)
Theorem web_repeated_connect_is_harmless conn current_peer data field port st :
  PyStr.strip data = "CONNECT:" +:+ field →
  PyStr.int field = Some port →
  let once := handle_client Web conn current_peer [Recv (RecvData data)] st in
  let twice := handle_client Web conn current_peer
                 [Recv (RecvData data); Recv (RecvData data)] st in
  active_peers twice.1 = active_peers once.1
  ∧ close_calls twice.1 = close_calls once.1
  ∧ twice.2 = once.2.
Proof.
  intros Hs Hi once twice. subst once twice.
  rewrite !(handle_client_connect _ _ _ _ _ _ _ _ Hs Hi).
  cbn [handle_client fst snd print close_calls active_peers].
  set (new_peer := (current_peer.1, port)).
  set (st1 := rekey current_peer new_peer conn st).
  destruct (close_calls_rekey_same new_peer conn
              (print (InfoUpdated new_peer) st1)) as [Hc Hp].
  rewrite Hc, Hp. split_and!; [|done|done].
  cbn [print active_peers]. apply insert_id.
  subst st1. rewrite peers_rekey. apply lookup_insert_eq.
Qed.

Lemma web_repeated_connect_is_harmless_witness :
  let st := accept_conn eph 0%nat empty_node in
  let once := handle_client Web 0%nat eph [Recv (RecvData "CONNECT:8000")] st in
  let twice := handle_client Web 0%nat eph
                 [Recv (RecvData "CONNECT:8000"); Recv (RecvData "CONNECT:8000")] st in
  active_peers twice.1 = active_peers once.1
  ∧ close_calls twice.1 = close_calls once.1
  ∧ twice.2 = once.2.
Proof.
  apply (web_repeated_connect_is_harmless 0%nat eph "CONNECT:8000" "8000" 8000);
    reflexivity.
Defined.

(** In the command-line program a CONNECT frame received twice in a row
    for a port other than the original one makes the reader call
    [close()] on its own socket: the second re-key finds the connection
    itself at the declared address.  The closed socket stays registered
    there; when the next read raises, as a read on a closed socket does,
    the reader ends, closes the socket once more, and the declared
    address is still registered to it. *)
Theorem cli_repeated_connect_closes_own_socket
    conn current_peer data field port st :
  PyStr.strip data = "CONNECT:" +:+ field →
  PyStr.int field = Some port →
  port ≠ current_peer.2 →
  let once := handle_client Cli conn current_peer [Recv (RecvData data)] st in
  let twice := handle_client Cli conn current_peer
                 [Recv (RecvData data); Recv (RecvData data)] st in
  let ended := handle_client Cli conn current_peer
                 [Recv (RecvData data); Recv (RecvData data); Recv RecvRaises] st in
  closes twice.1 conn = S (closes once.1 conn)
  ∧ active_peers twice.1 !! (current_peer.1, port) = Some conn
  ∧ ended.2 = None
  ∧ active_peers ended.1 !! (current_peer.1, port) = Some conn
  ∧ closes ended.1 conn = S (S (closes once.1 conn)).
Proof.
  intros Hs Hi Hne once twice ended. subst once twice ended.
  rewrite !(handle_client_connect _ _ _ _ _ _ _ _ Hs Hi).
  cbn [handle_client reader_step fst snd].
  set (new_peer := (current_peer.1, port)).
  assert (current_peer ≠ new_peer) as Hp.
  { subst new_peer. destruct current_peer as [h q]. cbn in *. congruence. }
  set (st1 := rekey current_peer new_peer conn st).
  assert (∀ l st0 s, closes (print l st0) s = closes st0 s) as Hpr by done.
  set (st2 := rekey current_peer new_peer conn (print (InfoUpdated new_peer) st1)).
  assert (closes st2 conn = S (closes st1 conn)) as Hc.
  { subst st2. rewrite closes_rekey. cbn [print active_peers]. subst st1.
    rewrite peers_rekey, lookup_delete_ne, lookup_insert_eq by done.
    rewrite decide_True by done. by rewrite Hpr. }
  assert (active_peers st2 !! new_peer = Some conn) as Ha
    by (subst st2; by rewrite peers_rekey, lookup_insert_eq).
  change (loop_body Cli conn current_peer RecvRaises
            (print (InfoUpdated new_peer) st2))
    with (print (ErrException current_peer) (print (InfoUpdated new_peer) st2), Break).
  cbn [fst snd]. rewrite !Hpr, peers_finally, closes_finally.
  rewrite decide_True by done. cbn [print active_peers].
  rewrite lookup_delete_ne by done. rewrite !Hpr, Hc. done.
Qed.

Lemma cli_repeated_connect_closes_own_socket_witness :
  let st := accept_conn eph 0%nat empty_node in
  let once := handle_client Cli 0%nat eph [Recv (RecvData "CONNECT:8000")] st in
  let twice := handle_client Cli 0%nat eph
                 [Recv (RecvData "CONNECT:8000"); Recv (RecvData "CONNECT:8000")] st in
  let ended := handle_client Cli 0%nat eph
                 [Recv (RecvData "CONNECT:8000"); Recv (RecvData "CONNECT:8000");
                  Recv RecvRaises] st in
  closes twice.1 0%nat = S (closes once.1 0%nat)
  ∧ active_peers twice.1 !! (eph.1, 8000) = Some 0%nat
  ∧ ended.2 = None
  ∧ active_peers ended.1 !! (eph.1, 8000) = Some 0%nat
  ∧ closes ended.1 0%nat = S (S (closes once.1 0%nat)).
Proof.
  apply (cli_repeated_connect_closes_own_socket 0%nat eph "CONNECT:8000" "8000" 8000);
    [reflexivity | reflexivity | vm_compute; discriminate].
Defined.

(** ** The sender and the dialer *)

(** A send or a connect to an address that is registered never dials: the
    outcome does not depend on what a connect would give, no reader is
    started, and no socket other than the registered one is touched. *)
Theorem registered_target_is_reused
    my_listen_port target message dial send_ok st s :
  active_peers st !! target = Some s →
  let sent := send_message target message dial send_ok st in
  let connected := connect_to_peer my_listen_port target dial send_ok st in
  sent = send_message target message ConnectRaises send_ok st
  ∧ connected = connect_to_peer my_listen_port target ConnectRaises send_ok st
  ∧ started sent = None ∧ started connected = None
  ∧ (∀ s', s' ≠ s → closes (after sent) s' = closes st s'
                   ∧ closes (after connected) s' = closes st s').
Proof.
  intros H sent connected. subst sent connected.
  unfold send_message, connect_to_peer, get_or_create. rewrite H.
  split_and!; [done | done | | |].
  - destruct send_ok; [|done].
    by destruct (String.eqb (PyStr.lower message) "exit").
  - by destruct send_ok.
  - intros s' Hs'. destruct send_ok; cbn [after].
    + destruct (String.eqb (PyStr.lower message) "exit"); cbn [after];
        unfold teardown; by rewrite ?closes_close, ?decide_False.
    + unfold teardown. by rewrite !closes_close, !decide_False.
Qed.

Lemma registered_target_is_reused_witness :
  let st := accept_conn far 0%nat empty_node in
  let sent := send_message far "hello" (Connected 1%nat far) true st in
  let connected := connect_to_peer 9000 far (Connected 1%nat far) true st in
  sent = send_message far "hello" ConnectRaises true st
  ∧ connected = connect_to_peer 9000 far ConnectRaises true st
  ∧ started sent = None ∧ started connected = None
  ∧ (∀ s', s' ≠ 0%nat → closes (after sent) s' = closes st s'
                        ∧ closes (after connected) s' = closes st s').
Proof.
  apply (registered_target_is_reused 9000 far "hello" (Connected 1%nat far) true
           (accept_conn far 0%nat empty_node) 0%nat).
  reflexivity.
Defined.



(** A failed connect changes nothing but the output: the registry, the
    sockets and the chat history are as before, no reader is started, and
    the two lines printed are the attempt and the error, for send and for
    connect alike and whatever the payload. *)
Theorem failed_connect_changes_nothing my_listen_port target message send_ok st :
  active_peers st !! target = None →
  let sent := send_message target message ConnectRaises send_ok st in
  let connected := connect_to_peer my_listen_port target ConnectRaises send_ok st in
  after connected = after sent
  ∧ active_peers (after sent) = active_peers st
  ∧ close_calls (after sent) = close_calls st
  ∧ chat_history (after sent) = chat_history st
  ∧ stdout (after sent)
    = (stdout st ++ [DebugConnecting target; ErrCouldNotConnect target])%list
  ∧ started sent = None ∧ started connected = None.
Proof.
  intros H sent connected. subst sent connected.
  unfold send_message, connect_to_peer, get_or_create. rewrite H.
  cbn [after started print active_peers close_calls chat_history stdout].
  by rewrite <- app_assoc.
Qed.

Lemma failed_connect_changes_nothing_witness :
  let sent := send_message far "exit" ConnectRaises true empty_node in
  let connected := connect_to_peer 9000 far ConnectRaises true empty_node in
  after connected = after sent
  ∧ active_peers (after sent) = active_peers empty_node
  ∧ close_calls (after sent) = close_calls empty_node
  ∧ chat_history (after sent) = chat_history empty_node
  ∧ stdout (after sent)
    = (stdout empty_node ++ [DebugConnecting far; ErrCouldNotConnect far])%list
  ∧ started sent = None ∧ started connected = None.
Proof.
  apply (failed_connect_changes_nothing 9000 far "exit" true empty_node).
  reflexivity.
Defined.

(** The teardown after a failed write or a sent exit word removes the
    target address, not the address the socket was registered under: a
    socket just dialed that reports another address than the target (a
    host name was dialed) is closed and stays registered. *)
Theorem teardown_misses_reported_address target message s peername send_ok st :
  active_peers st !! target = None →
  peername ≠ target →
  negb send_ok || String.eqb (PyStr.lower message) "exit" = true →
  let out := send_message target message (Connected s peername) send_ok st in
  active_peers (after out) !! peername = Some s
  ∧ active_peers (after out) !! target = None
  ∧ closes (after out) s = S (closes st s).
Proof.
  intros H Hne Hc out. subst out.
  unfold send_message, get_or_create. rewrite H.
  assert (∀ st0, active_peers (teardown target s st0) !! peername
                 = active_peers st0 !! peername) as Ht
    by (intros st0; unfold teardown; cbn; by rewrite lookup_delete_ne).
  destruct send_ok; cbn [negb orb] in Hc; [rewrite Hc|]; cbn [after];
    rewrite Ht; unfold teardown; rewrite closes_close_eq;
    (split_and!; [apply lookup_insert_eq | apply lookup_delete_eq | done]).
Qed.

Lemma teardown_misses_reported_address_witness :
  let out := send_message ("localhost", 7000) "hello"
               (Connected 0%nat ("127.0.0.1", 7000)) false empty_node in
  active_peers (after out) !! ("127.0.0.1", 7000) = Some 0%nat
  ∧ active_peers (after out) !! ("localhost", 7000) = None
  ∧ closes (after out) 0%nat = S (closes empty_node 0%nat).
Proof.
  apply (teardown_misses_reported_address ("localhost", 7000) "hello" 0%nat
           ("127.0.0.1", 7000) false empty_node);
    [reflexivity | discriminate | reflexivity].
Defined.

(** ** The front ends *)

Lemma lower_app a b : PyStr.lower (a +:+ b) = PyStr.lower a +:+ PyStr.lower b.
Proof.
  induction a as [|c a IH]; [done|].
  change (String c a +:+ b) with (String c (a +:+ b)).
  cbn [PyStr.lower]. by rewrite IH.
Qed.

Lemma colon_is_not_in_exit a rest : a +:+ String ":" rest ≠ "exit".
Proof.
  destruct a as [|c1 [|c2 [|c3 [|c4 [|c5 a]]]]]; intros H;
    vm_compute in H; discriminate H.
Qed.

Lemma chat_payload_is_not_exit team_name message :
  String.eqb (PyStr.lower (chat_payload team_name message)) "exit" = false.
Proof.
  apply String.eqb_neq. unfold chat_payload. rewrite lower_app.
  change (PyStr.lower (": " +:+ message))
    with (String ":" (String " " (PyStr.lower message))).
  apply colon_is_not_in_exit.
Qed.

Lemma send_ordinary_payload target message dial st :
  String.eqb (PyStr.lower message) "exit" = false →
  let out := send_message target message dial true st in
  (∀ s, closes (after out) s = closes st s)
  ∧ dom (active_peers st) ⊆ dom (active_peers (after out)).
Proof.
  intros Hx out. subst out. unfold send_message, get_or_create. rewrite Hx.
  destruct (active_peers st !! target); [done|].
  destruct dial as [s pn|]; cbn [after]; [|done].
  split; [done|]. cbn. rewrite dom_insert_L. set_solver.
Qed.

(** The exit word of [send_message] cannot be reached from the front
    ends: the payload they build, team name, colon, space, message, is
    never the exit word, whatever is typed.  So a send from the menu or
    from the [/send] route whose write succeeds closes no socket and
    removes no address from the registry. *)
Theorem front_end_send_never_disconnects
    team_name target_ip port_text message dial st :
  String.eqb (PyStr.lower (chat_payload team_name (PyStr.strip message))) "exit"
  = false
  ∧ (∀ s, closes (node_after (menu_send team_name target_ip port_text message
                                dial true st) st) s = closes st s)
  ∧ dom (active_peers st)
    ⊆ dom (active_peers (node_after (menu_send team_name target_ip port_text
                                       message dial true st) st))
  ∧ (∀ s, closes (node_after (route_send team_name target_ip port_text message
                                dial true st) st) s = closes st s)
  ∧ dom (active_peers st)
    ⊆ dom (active_peers (node_after (route_send team_name target_ip port_text
                                       message dial true st) st)).
Proof.
  pose proof (chat_payload_is_not_exit team_name (PyStr.strip message)) as Hx.
  split; [done|].
  unfold menu_send, route_send.
  destruct (PyStr.is_empty (PyStr.strip target_ip) || PyStr.is_empty (PyStr.strip port_text)
            || PyStr.is_empty (PyStr.strip message));
    destruct (PyStr.int (PyStr.strip port_text)) as [port|]; cbn [node_after];
    repeat match goal with
           | |- context [send_message ?t ?m ?d true ?s] =>
               let H := fresh in
               pose proof (send_ordinary_payload t m d s Hx) as H;
               cbv zeta in H; destruct H;
               generalize dependent (send_message t m d true s); intros
           end; split_and!; done.
Qed.

Lemma chat_history_send target message dial send_ok st :
  chat_history (after (send_message target message dial send_ok st))
  = chat_history st.
Proof.
  unfold send_message, get_or_create.
  destruct (active_peers st !! target); [|destruct dial];
    destruct send_ok; try destruct (String.eqb (PyStr.lower message) "exit");
    done.
Qed.

(** The [/send] route calls [send_message] only when the three trimmed
    fields are not empty and the port is an integer; it then records the
    message in the chat history under the team name before sending, so the
    message is in the history whether or not the connect and the write
    succeed.  A rejected request leaves the node unchanged. *)
Theorem route_send_records_before_sending
    team_name target_ip target_port message dial send_ok st :
  match route_send team_name target_ip target_port message dial send_ok st with
  | Called out =>
      PyStr.is_empty (PyStr.strip target_ip) = false
      ∧ PyStr.is_empty (PyStr.strip message) = false
      ∧ (∃ port, PyStr.int (PyStr.strip target_port) = Some port
                 ∧ out = send_message (PyStr.strip target_ip, port)
                           (chat_payload team_name (PyStr.strip message))
                           dial send_ok
                           (add_chat_message team_name (PyStr.strip message) st))
      ∧ chat_history (after out)
        = (chat_history st ++ [(team_name, PyStr.strip message)])%list
  | Rejected =>
      PyStr.is_empty (PyStr.strip target_ip) || PyStr.is_empty (PyStr.strip target_port)
      || PyStr.is_empty (PyStr.strip message) = true
  | InvalidPort st' => PyStr.int (PyStr.strip target_port) = None ∧ st' = st
  end.
Proof.
  unfold route_send.
  destruct (PyStr.is_empty (PyStr.strip target_ip)) eqn:E1; [done|].
  destruct (PyStr.is_empty (PyStr.strip target_port)) eqn:E2; [done|].
  destruct (PyStr.is_empty (PyStr.strip message)) eqn:E3; [done|].
  cbn [orb]. destruct (PyStr.int (PyStr.strip target_port)) as [port|]; [|done].
  split_and!; [done | done | by exists port |].
  by rewrite chat_history_send.
Qed.

(** A port text that is no integer never reaches the network, in any of
    the four entry points: neither [send_message] nor [connect_to_peer] is
    called.  The menu of the command-line program answers with the line
    "Invalid port number" and changes nothing else; the routes of [app.py]
    leave the node as it is. *)
Theorem invalid_port_reaches_nothing
    team_name my_listen_port ip port_text message dial send_ok st :
  PyStr.int (PyStr.strip port_text) = None →
  menu_send team_name ip port_text message dial send_ok st
  = InvalidPort (print ErrInvalidPort st)
  ∧ menu_connect my_listen_port ip port_text dial send_ok st
    = InvalidPort (print ErrInvalidPort st)
  ∧ route_connect my_listen_port ip port_text dial send_ok st = InvalidPort st
  ∧ node_after (route_send team_name ip port_text message dial send_ok st) st = st
  ∧ stdout (node_after (menu_send team_name ip port_text message dial send_ok st) st)
    = (stdout st ++ [ErrInvalidPort])%list
  ∧ active_peers (node_after (menu_send team_name ip port_text message dial
                                send_ok st) st) = active_peers st
  ∧ close_calls (node_after (menu_connect my_listen_port ip port_text dial
                               send_ok st) st) = close_calls st.
Proof.
  intros H. unfold menu_send, menu_connect, route_send, route_connect.
  rewrite H.
  by destruct (PyStr.is_empty (PyStr.strip ip) || PyStr.is_empty (PyStr.strip port_text)
               || PyStr.is_empty (PyStr.strip message)).
Qed.

Lemma invalid_port_reaches_nothing_witness :
  let st := accept_conn far 0%nat empty_node in
  menu_send "team" "10.0.0.9" "70 00" "hi" ConnectRaises true st
  = InvalidPort (print ErrInvalidPort st)
  ∧ menu_connect 9000 "10.0.0.9" "70 00" ConnectRaises true st
    = InvalidPort (print ErrInvalidPort st)
  ∧ route_connect 9000 "10.0.0.9" "70 00" ConnectRaises true st = InvalidPort st
  ∧ node_after (route_send "team" "10.0.0.9" "70 00" "hi" ConnectRaises true st) st = st
  ∧ stdout (node_after (menu_send "team" "10.0.0.9" "70 00" "hi" ConnectRaises true st) st)
    = (stdout st ++ [ErrInvalidPort])%list
  ∧ active_peers (node_after (menu_send "team" "10.0.0.9" "70 00" "hi" ConnectRaises
                                true st) st) = active_peers st
  ∧ close_calls (node_after (menu_connect 9000 "10.0.0.9" "70 00" ConnectRaises
                               true st) st) = close_calls st.
Proof.
  apply (invalid_port_reaches_nothing "team" 9000 "10.0.0.9" "70 00" "hi"
           ConnectRaises true (accept_conn far 0%nat empty_node)).
  reflexivity.
Defined.

(** ** The listings *)

Lemma all_digits_no_colon s : all_digits s = true → no_colon s = true.
Proof.
  induction s as [|c s IH]; [done|]. cbn [all_digits no_colon].
  intros [Hc Hs]%andb_prop. rewrite (IH Hs), andb_true_r.
  destruct (Ascii.eqb_spec c ":") as [->|]; [discriminate Hc | done].
Qed.

Lemma no_colon_str z : no_colon (PyStr.str z) = true.
Proof.
  unfold PyStr.str. destruct z as [|p|p]; cbn -[no_colon]; [done|..];
    rewrite string_of_pos_uint;
    [|change (no_colon (String "-" ?s)) with (no_colon s)];
    apply all_digits_no_colon, all_digits_uint.
Qed.

Lemma no_colon_app a s : no_colon (a +:+ String ":" s) = false.
Proof.
  induction a as [|c a IH]; [done|].
  change (String c a +:+ String ":" s) with (String c (a +:+ String ":" s)).
  cbn [no_colon]. rewrite IH. apply andb_false_r.
Qed.

Lemma app_cons c a b : String c a +:+ b = String c (a +:+ b).
Proof. done. Qed.

Lemma last_colon_splits a1 a2 s1 s2 :
  no_colon s1 = true → no_colon s2 = true →
  a1 +:+ String ":" s1 = a2 +:+ String ":" s2 → a1 = a2 ∧ s1 = s2.
Proof.
  intros H1 H2. revert a2. induction a1 as [|c a1 IH]; intros [|c' a2] E.
  - by injection E.
  - rewrite app_cons in E. injection E as _ E.
    rewrite E, no_colon_app in H1. done.
  - rewrite app_cons in E. injection E as _ E.
    rewrite <- E, no_colon_app in H2. done.
  - rewrite !app_cons in E. injection E as -> E.
    destruct (IH _ E) as [-> ->]. done.
Qed.

Lemma label_inj : Inj (=) (=) label.
Proof.
  intros [h1 n1] [h2 n2]. unfold label. cbn [fst snd]. intros E.
  change (h1 +:+ String ":" (PyStr.str n1) = h2 +:+ String ":" (PyStr.str n2)) in E.
  apply last_colon_splits in E as [-> E]; [|apply no_colon_str..].
  f_equal. apply (f_equal PyStr.int) in E. rewrite !int_str in E. congruence.
Qed.

(** The label [ip:port] shown for a peer identifies it: two addresses with
    the same label are the same address, also when the host text itself
    contains colons. *)
Theorem label_identifies_peer p q : label p = label q → p = q.
Proof. apply label_inj. Qed.

Lemma label_identifies_peer_witness : ("::1", 7000) = ("::1", 7000).
Proof. apply (label_identifies_peer ("::1", 7000) ("::1", 7000)). reflexivity. Defined.

Lemma keys_of_elem st keys p :
  keys_of st keys → p ∈ keys ↔ is_Some (active_peers st !! p).
Proof.
  unfold keys_of. intros ->. rewrite list_elem_of_fmap. split.
  - intros ([k x] & -> & H%elem_of_map_to_list). eauto.
  - intros [x H]. exists (p, x). by rewrite elem_of_map_to_list.
Qed.

Lemma keys_of_NoDup st keys : keys_of st keys → NoDup keys.
Proof. unfold keys_of. intros ->. apply NoDup_fst_map_to_list. Qed.

Lemma keys_of_length st keys : keys_of st keys → length keys = size (active_peers st).
Proof.
  unfold keys_of. intros ->. by rewrite length_fmap, length_map_to_list.
Qed.

(** The list of peers the [/updates] route returns shows every registered
    address exactly once, in whatever order the dictionary gives its
    keys: it has as many labels as the registry has entries, no label
    twice, and a label is listed exactly when its address is registered. *)
Theorem updates_lists_each_peer_once keys st :
  keys_of st keys →
  (updates keys st).1 = chat_history st
  ∧ length (updates keys st).2 = size (active_peers st)
  ∧ NoDup (updates keys st).2
  ∧ ∀ p, label p ∈ (updates keys st).2 ↔ is_Some (active_peers st !! p).
Proof.
  intros H. unfold updates. cbn [fst snd]. split_and!.
  - done.
  - rewrite length_fmap. by apply keys_of_length.
  - apply (@NoDup_fmap_2 _ _ label label_inj). by apply (keys_of_NoDup st).
  - intros p. rewrite <- (keys_of_elem st keys p H).
    rewrite list_elem_of_fmap. split; [|by eauto].
    intros (q & E & Hq). by rewrite (label_inj _ _ E).
Qed.

Lemma updates_lists_each_peer_once_witness :
  let st := accept_conn far 0%nat empty_node in
  (updates [far] st).1 = chat_history st
  ∧ length (updates [far] st).2 = size (active_peers st)
  ∧ NoDup (updates [far] st).2
  ∧ ∀ p, label p ∈ (updates [far] st).2 ↔ is_Some (active_peers st !! p).
Proof.
  apply (updates_lists_each_peer_once [far] (accept_conn far 0%nat empty_node)).
  unfold keys_of. vm_compute. reflexivity.
Defined.




(** ** The end of [main] *)

Lemma closes_close_all items st s :
  closes (close_all items st) s
  = (closes st s + length (filter (λ kv, kv.2 = s) items))%nat.
Proof.
  revert st. induction items as [|kv items IH]; intros st.
  - cbn. lia.
  - change (close_all (kv :: items) st) with (close_all items (close kv.2 st)).
    rewrite IH, closes_close, filter_cons. destruct kv as [k x]. cbn [snd].
    destruct (decide (x = s)) as [->|]; cbn [length]; lia.
Qed.

Lemma registrations_pos st key s :
  active_peers st !! key = Some s → (1 ≤ registrations st s)%nat.
Proof.
  intros H%elem_of_map_to_list. unfold registrations.
  assert ((key, s) ∈ filter (λ kv, kv.2 = s) (map_to_list (active_peers st))) as Hin
    by (by apply list_elem_of_filter).
  destruct (filter _ _); [by apply elem_of_nil in Hin | cbn; lia].
Qed.

Lemma registrations_zero st s :
  (∀ key, active_peers st !! key ≠ Some s) → registrations st s = 0%nat.
Proof.
  intros H. unfold registrations.
  rewrite (elem_of_nil_inv (filter (λ kv, kv.2 = s) (map_to_list (active_peers st))));
    [done|].
  intros [k x] [Hx Hin%elem_of_map_to_list]%list_elem_of_filter.
  cbn in Hx. subst x. by apply (H k).
Qed.

(** The shutdown at the end of [main] empties the registry and calls
    [close()] on a socket once for every address it was registered under:
    every registered socket is closed, and a socket that is not in the
    registry, such as one whose slot was overwritten, is not touched. *)
Theorem shutdown_closes_registered_only items st :
  items ≡ₚ map_to_list (active_peers st) →
  active_peers (shutdown_peers items st) = ∅
  ∧ (∀ s, closes (shutdown_peers items st) s
          = (closes st s + registrations st s)%nat)
  ∧ (∀ key s, active_peers st !! key = Some s →
              (closes st s < closes (shutdown_peers items st) s)%nat)
  ∧ (∀ s, (∀ key, active_peers st !! key ≠ Some s) →
          closes (shutdown_peers items st) s = closes st s).
Proof.
  intros Hp.
  assert (∀ s, closes (shutdown_peers items st) s
               = (closes st s + registrations st s)%nat) as Hc.
  { intros s. unfold shutdown_peers, registrations.
    change (closes (with_peers (λ _, ∅) (close_all items st)) s)
      with (closes (close_all items st) s).
    by rewrite closes_close_all, Hp. }
  split_and!; [done | done | |].
  - intros key s H. rewrite Hc. pose proof (registrations_pos _ _ _ H). lia.
  - intros s H. rewrite Hc, (registrations_zero _ _ H). lia.
Qed.

Lemma shutdown_closes_registered_only_witness :
  let st := accept_conn eph 1%nat (accept_conn eph 0%nat empty_node) in
  active_peers (shutdown_peers [(eph, 1%nat)] st) = ∅
  ∧ (∀ s, closes (shutdown_peers [(eph, 1%nat)] st) s
          = (closes st s + registrations st s)%nat)
  ∧ (∀ key s, active_peers st !! key = Some s →
              (closes st s < closes (shutdown_peers [(eph, 1%nat)] st) s)%nat)
  ∧ (∀ s, (∀ key, active_peers st !! key ≠ Some s) →
          closes (shutdown_peers [(eph, 1%nat)] st) s = closes st s).
Proof.
  apply (shutdown_closes_registered_only [(eph, 1%nat)]
           (accept_conn eph 1%nat (accept_conn eph 0%nat empty_node))).
  vm_compute. reflexivity.
Defined.

(** ** The listener *)




(** ** The node among its threads *)

(** In [app.py], whatever the threads do, a registered connection has a
    running reader whose current peer address is the address it is
    registered under; so no connection is ever registered under two
    addresses. *)
Theorem web_entry_has_its_reader actions key conn :
  let sys := run Web actions initial in
  active_peers (the_node sys) !! key = Some conn →
  readers sys !! conn = Some key
  ∧ (conn < next_sock sys)%nat
  ∧ ∀ key', active_peers (the_node sys) !! key' = Some conn → key' = key.
Proof.
  intros sys H.
  destruct (tracked_run actions initial tracked_initial) as [H1 H2 _].
  fold sys in H1, H2. pose proof (H1 _ _ H) as Hr. split_and!; [done|by eauto|].
  intros key' H'. apply H1 in H'. congruence.
Qed.

Lemma web_entry_has_its_reader_witness :
  let sys := collision Web in
  readers sys !! 1%nat = Some decl
  ∧ (1 < next_sock sys)%nat
  ∧ ∀ key', active_peers (the_node sys) !! key' = Some 1%nat → key' = decl.
Proof.
  apply (web_entry_has_its_reader
           [Accept eph; Deliver 0%nat (Recv (RecvData "CONNECT:8000"));
            Accept eph2; Deliver 1%nat (Recv (RecvData "CONNECT:8000"))] decl 1%nat).
  reflexivity.
Defined.

Lemma step_appends v a sys :
  stdout (the_node sys) `prefix_of` stdout (the_node (step v a sys))
  ∧ chat_history (the_node sys) `prefix_of` chat_history (the_node (step v a sys)).
Proof.
  destruct a as [addr|target peername|conn e|target s]; cbn [step the_node].
  - split; [by eexists | done].
  - split; [by eexists | done].
  - destruct (readers sys !! conn) as [current_peer|]; [|done].
    destruct (reader_step_appends v conn current_peer e (the_node sys))
      as (extra & chat & H1 & H2 & _).
    destruct (reader_step v conn current_peer e (the_node sys)) as [st1 [p|]];
      cbn [fst the_node] in *; split; by eexists.
  - done.
Qed.

(** The output and the chat history of the node only grow: whatever the
    threads do, in either program, what was printed or recorded before is
    still there, in place, afterwards. *)
Theorem logs_only_grow v actions sys :
  stdout (the_node sys) `prefix_of` stdout (the_node (run v actions sys))
  ∧ chat_history (the_node sys)
    `prefix_of` chat_history (the_node (run v actions sys)).
Proof.
  revert sys. induction actions as [|a actions IH]; intros sys; [done|].
  destruct (step_appends v a sys) as [H1 H2].
  destruct (IH (step v a sys)) as [H3 H4].
  split; etrans; eauto.
Qed.

(** ** Front-end payloads at the reader *)








(** A team named CONNECT shows the second case: its chat is read as a
    handshake by the peer. *)
Example team_named_connect :
  let st := accept_conn eph 0%nat empty_node in
  active_peers (loop_body Web 0%nat eph
                  (RecvData (chat_payload "CONNECT" "8000")) st).1 !! decl
  = Some 0%nat.
Proof. vm_compute. done. Qed.
